(** * Draft geometry utilities: faces

    A shallow embedding of [draftgeoutils/faces.py] (FreeCAD, Draft
    workbench) and the properties of its topology bookkeeping.

    The geometry kernel ([Part]) is an opaque collaborator: its objects are
    records of the attributes the module reads, and its constructors are
    the fields of the [Kernel] class.  Python exceptions are the [Raise]
    outcomes of the [result] type, [None] is [option]'s [None], [print] is
    a list of emitted lines, and a [dict] is an association list in
    insertion order, which is the order Python iterates it in. *)

From Stdlib Require Import String.
From Stdlib Require Import List ZArith QArith Qabs Bool Lia Arith Permutation.
Import ListNotations.

Local Open Scope Z_scope.

(** ** Outcomes of a call *)

Inductive exn : Type :=
| IndexError
| KeyError
| AttributeError
| TypeError
| OCCError.

Inductive result (A : Type) : Type :=
| Ok (a : A)
| Raise (e : exn).

Arguments Ok {A} a.
Arguments Raise {A} e.

Definition result_bind {A B : Type} (r : result A) (k : A -> result B) : result B :=
  match r with
  | Ok a => k a
  | Raise e => Raise e
  end.

Declare Scope result_scope.
Delimit Scope result_scope with result.
Notation "x <- r ;; k" := (result_bind r (fun x => k))
  (at level 61, r at next level, right associativity) : result_scope.
Local Open Scope result_scope.

Definition of_option {A : Type} (e : exn) (o : option A) : result A :=
  match o with
  | Some a => Ok a
  | None => Raise e
  end.

(** ** Kernel objects, as far as the module reads them *)

(** A finite floating-point number is a dyadic rational, and comparisons of
    finite floats are exact, so coordinates and lengths are rationals. *)
Definition Vector : Type := (Q * Q * Q)%type.

(** Modelled from the spec: the kernel's [Vector] comparison [n1 == n2] is
    not part of this module; the spec gives it as an exact, component-wise
    equality without tolerance. *)
Definition Vector_eqb (a b : Vector) : bool :=
  let '(ax, ay, az) := a in
  let '(bx, by_, bz) := b in
  Qeq_bool ax bx && Qeq_bool ay by_ && Qeq_bool az bz.

(** [a > b] on numbers *)
Definition Qgtb (a b : Q) : bool := negb (Qle_bool a b).

Record Vertex : Type := mkVertex { Point : Vector }.

(** Two edge objects with the same [hashCode] are the same topological edge,
    possibly with different orientations. *)
Record Edge : Type := mkEdge {
  edgeHashCode : Z;
  edgeReversed : bool
}.

Record Wire : Type := mkWire {
  wireEdges : list Edge;
  wireVertexes : list Vertex;
  wireIsClosed : bool;
  wireDiagonalLength : Q  (* BoundBox.DiagonalLength *)
}.

Record Face : Type := mkFace {
  faceHashCode : Z;
  faceEdges : list Edge;
  faceVertexes : list Vertex;
  normalAt : Q -> Q -> Vector;
  faceIsValid : bool
}.

(** What [cleanFaces], [getBoundary] and [removeSplitter] read of a
    shape. *)
Record Shape : Type := mkShape {
  Faces : list Face;
  Edges : list Edge;
  isClosed : bool
}.

(** A face seen as a shape: its only face is itself and its edges are its
    own. *)
Definition shapeOfFace (f : Face) : Shape :=
  {| Faces := [f]; Edges := faceEdges f; isClosed := false |}.

(** The operations of the [Part] kernel and of [DraftVecUtils] the module
    calls.  A constructor either builds its object or raises. *)
Class Kernel : Type := {
  sortEdges : list Edge -> list Edge;               (* Part.__sortEdges__ *)
  Part_Wire : list Edge -> result Wire;
  Part_Face : Wire -> result Face;
  Part_Face_wires : list Wire -> result Face;       (* Part.Face([outer, inner]) *)
  Part_LineSegment : Vector -> Vector -> result Edge; (* LineSegment(p, q).toShape() *)
  makeCompound : list Face -> Shape;
  makeShell : list Face -> result Shape;
  makeSolid : Shape -> result Shape;
  reverse : Face -> Face;
  Vector_sub : Vector -> Vector -> Vector;
  project : Vector -> Vector -> Vector;             (* DraftVecUtils.project *)
  Length : Vector -> Q;
  round_precision : Q -> Q                          (* round(x, precision()) *)
}.

(** ** Dictionaries in insertion order *)

Section Dict.
Context {V : Type}.

Definition dict : Type := list (Z * V).

Fixpoint dict_get (k : Z) (d : dict) : option V :=
  match d with
  | [] => None
  | (k', v) :: rest => if k' =? k then Some v else dict_get k rest
  end.

(** [d[k] = v]: an existing key keeps its place, a new one goes last. *)
Fixpoint dict_set (k : Z) (v : V) (d : dict) : dict :=
  match d with
  | [] => [(k, v)]
  | (k', v') :: rest =>
      if k' =? k then (k', v) :: rest else (k', v') :: dict_set k v rest
  end.

Definition dict_keys (d : dict) : list Z := map fst d.
Definition dict_values (d : dict) : list V := map snd d.
End Dict.

Arguments dict V : clear implicits.

(** [x in l] for a list of hash codes *)
Definition Z_in (x : Z) (l : list Z) : bool := existsb (Z.eqb x) l.

(** The argument of [getBoundary] and [concatenate]: a shape, or a Python
    list of faces. *)
Inductive FaceGroup : Type :=
| AShape (s : Shape)
| AList (l : list Face).

(** What [concatenate] returns. *)
Inductive Concatenated : Type :=
| TheShape (g : FaceGroup)   (* the argument itself *)
| TheWire (w : Wire)
| TheFace (f : Face).

Section Faces.
Context {K : Kernel}.

(** ** getBoundary *)

Definition groupShape (g : FaceGroup) : Shape :=
  match g with
  | AShape s => s
  | AList l => makeCompound l
  end.

(** The lookup table: the number of occurrences of each edge. *)
Definition countEdge (table : dict nat) (e : Edge) : dict nat :=
  let hash_code := edgeHashCode e in
  match dict_get hash_code table with
  | Some n => dict_set hash_code (n + 1)%nat table
  | None => dict_set hash_code 1%nat table
  end.

Definition boundaryTable (faces : list Face) : dict nat :=
  fold_left (fun table f => fold_left countEdge (faceEdges f) table) faces [].

(** The filter; [table[e.hashCode()]] raises [KeyError] on a missing key. *)
Fixpoint boundaryFilter (table : dict nat) (edges : list Edge) (bound : list Edge)
  : result (list Edge) :=
  match edges with
  | [] => Ok bound
  | e :: rest =>
      n <- of_option KeyError (dict_get (edgeHashCode e) table) ;;
      boundaryFilter table rest (if (n =? 1)%nat then bound ++ [e] else bound)
  end.

Definition getBoundary (g : FaceGroup) : result (list Edge) :=
  let shape := groupShape g in
  let table := boundaryTable (Faces shape) in
  boundaryFilter table (Edges shape) [].

(** ** concatenate *)

Definition concatenate (shape : FaceGroup) : list string * result Concatenated :=
  match getBoundary shape with
  | Raise e => ([], Raise e)
  | Ok edges =>
      let edges := sortEdges edges in
      match (wire <- Part_Wire edges ;; face <- Part_Face wire ;; Ok (wire, face)) with
      | Raise OCCError =>
          (["DraftGeomUtils: Couldn't join faces into one"%string], Ok (TheShape shape))
      | Raise e => ([], Raise e)
      | Ok (wire, face) =>
          if negb (wireIsClosed wire) then ([], Ok (TheWire wire))
          else ([], Ok (TheFace face))
      end
  end.

(** ** isCoplanar *)

(** The inner loop, over the vertexes of one face: [False] at the first
    vertex off the plane of the first face. *)
Fixpoint vertexesInPlane (base : Vector) (face0 : Face) (tolerance : Q)
    (vs : list Vertex) : result bool :=
  match vs with
  | [] => Ok true
  | v :: rest =>
      v0 <- of_option IndexError (hd_error (faceVertexes face0)) ;;
      let chord := Vector_sub (Point v) (Point v0) in
      let dist := project chord base in
      if Qgtb (round_precision (Length dist)) tolerance then Ok false
      else vertexesInPlane base face0 tolerance rest
  end.

(** The outer loop, over [faces[1:]]. *)
Fixpoint facesInPlane (base : Vector) (face0 : Face) (tolerance : Q)
    (faces : list Face) : result bool :=
  match faces with
  | [] => Ok true
  | f :: rest =>
      ok <- vertexesInPlane base face0 tolerance (faceVertexes f) ;;
      if ok then facesInPlane base face0 tolerance rest else Ok false
  end.

Definition isCoplanar (faces : list Face) (tolerance : Q) : result bool :=
  if (length faces <? 2)%nat then Ok true
  else
    face0 <- of_option IndexError (nth_error faces 0) ;;
    let base := normalAt face0 0 0 in
    facesInPlane base face0 tolerance (skipn 1 faces).

(** ** bind *)

Definition unable_to_bind : string := "DraftGeomUtils: unable to bind wires".

(** The wires handed to [Part.Face] when both are closed, outer first. *)
Definition closedWires (w1 w2 : Wire) : list Wire :=
  let d1 := wireDiagonalLength w1 in
  let d2 := wireDiagonalLength w2 in
  if Qgtb d1 d2 then [w1; w2] else [w2; w1].

(** The body of the [try] block: the two bridges, then the wire and the
    face.  [Vertexes[0]] and [Vertexes[-1]] raise [IndexError] on a wire
    without vertexes. *)
Definition bridgeWires (w1 w2 : Wire) : result Face :=
  a0 <- of_option IndexError (hd_error (wireVertexes w1)) ;;
  b0 <- of_option IndexError (hd_error (wireVertexes w2)) ;;
  w3 <- Part_LineSegment (Point a0) (Point b0) ;;
  a1 <- of_option IndexError (hd_error (rev (wireVertexes w1))) ;;
  b1 <- of_option IndexError (hd_error (rev (wireVertexes w2))) ;;
  w4 <- Part_LineSegment (Point a1) (Point b1) ;;
  w <- Part_Wire (wireEdges w1 ++ [w3] ++ wireEdges w2 ++ [w4]) ;;
  Part_Face w.

(** A wire argument is [None] when it is null. *)
Definition bind (w1 w2 : option Wire) : list string * result (option Face) :=
  match w1, w2 with
  | Some w1, Some w2 =>
      if wireIsClosed w1 && wireIsClosed w2 then
        ([], f <- Part_Face_wires (closedWires w1 w2) ;; Ok (Some f))
      else
        match bridgeWires w1 w2 with
        | Ok f => ([], Ok (Some f))
        | Raise OCCError => ([unable_to_bind], Ok None)
        | Raise e => ([], Raise e)
        end
  | _, _ => ([unable_to_bind], Ok None)
  end.

(** ** removeSplitter *)

(** The lookup table: the edge objects found under each hash code. *)
Definition lookupEdge (lookup : dict (list Edge)) (e : Edge) : dict (list Edge) :=
  let h := edgeHashCode e in
  match dict_get h lookup with
  | Some l => dict_set h (l ++ [e]) lookup
  | None => dict_set h [e] lookup
  end.

Definition splitterLookup (faces : list Face) : dict (list Edge) :=
  fold_left (fun lookup f => fold_left lookupEdge (faceEdges f) lookup) faces [].

(** [[e[0] for e in lookup.values() if len(e) == 1]] *)
Definition singleEdges (lookup : dict (list Edge)) : list Edge :=
  flat_map (fun e => match e with [e0] => [e0] | _ => [] end) (dict_values lookup).

Definition removeSplitter (shape : Shape) : result (option Face) :=
  let lookup := splitterLookup (Faces shape) in
  let edges := singleEdges lookup in
  match (w <- Part_Wire edges ;; Part_Face w) with
  | Raise OCCError => Ok None
  | Raise e => Raise e
  | Ok face => if faceIsValid face then Ok (Some face) else Ok None
  end.

(** ** cleanFaces *)

Definition half : Q := 1 # 2.

(** [find(hc)]: the first face of the face set with the given hashcode.
    The Python function falls off its end when there is none and so
    returns [None]. *)
Definition find (faceset : list Face) (hc : Z) : option Face :=
  List.find (fun f => faceHashCode f =? hc) faceset.

(** [find(hc).Edges], [find(hc).normalAt]: an attribute of [None] raises
    [AttributeError]. *)
Definition findFace (faceset : list Face) (hc : Z) : result Face :=
  of_option AttributeError (find faceset hc).

(** The two nested loops of [findNeighbour], from index [i] on. *)
Fixpoint findNeighbourFrom (faceset : list Face) (eset : list Z)
    (hfacelist : list Z) (i : nat) : result (option nat) :=
  match hfacelist with
  | [] => Ok None
  | h :: rest =>
      f <- findFace faceset h ;;
      if existsb (fun ee => Z_in (edgeHashCode ee) eset) (faceEdges f)
      then Ok (Some i)
      else findNeighbourFrom faceset eset rest (S i)
  end.

Definition findNeighbour (faceset : list Face) (hface : Z) (hfacelist : list Z)
  : result (option nat) :=
  f <- findFace faceset hface ;;
  let eset := map edgeHashCode (faceEdges f) in
  findNeighbourFrom faceset eset hfacelist 0.

(** The lookup table: the hashcodes of the faces that own each edge. *)
Definition lutEdge (face : Z) (lut : dict (list Z)) (edge : Edge) : dict (list Z) :=
  let k := edgeHashCode edge in
  match dict_get k lut with
  | Some l => dict_set k (l ++ [face]) lut
  | None => dict_set k [face] lut
  end.

Definition buildLut (faceset : list Face) : dict (list Z) :=
  fold_left
    (fun lut face => fold_left (lutEdge (faceHashCode face)) (faceEdges face) lut)
    faceset [].

(** Edges shared by 2 faces. *)
Definition sharedEdges (lut : dict (list Z)) : list Z :=
  map fst (filter (fun kv => (List.length (snd kv) =? 2)%nat) lut).

(** Those with the same normals. *)
Fixpoint targetEdges (faceset : list Face) (lut : dict (list Z))
    (sharedhedges : list Z) (targethedges : list Z) : result (list Z) :=
  match sharedhedges with
  | [] => Ok targethedges
  | hedge :: rest =>
      faces <- of_option KeyError (dict_get hedge lut) ;;
      h0 <- of_option IndexError (nth_error faces 0) ;;
      f0 <- findFace faceset h0 ;;
      let n1 := normalAt f0 half half in
      h1 <- of_option IndexError (nth_error faces 1) ;;
      f1 <- findFace faceset h1 ;;
      let n2 := normalAt f1 half half in
      targetEdges faceset lut rest
        (if Vector_eqb n1 n2 then targethedges ++ [hedge] else targethedges)
  end.

(** The target faces. *)
Definition addFace (hfaces : list Z) (f : Z) : list Z :=
  if negb (Z_in f hfaces) then hfaces ++ [f] else hfaces.

Fixpoint targetFaces (lut : dict (list Z)) (targethedges : list Z) (hfaces : list Z)
  : result (list Z) :=
  match targethedges with
  | [] => Ok hfaces
  | hedge :: rest =>
      faces <- of_option KeyError (dict_get hedge lut) ;;
      targetFaces lut rest (fold_left addFace faces hfaces)
  end.

(** [l.pop(i)]: the element and the list left. *)
Definition pop (i : nat) (l : list Z) : result (Z * list Z) :=
  x <- of_option IndexError (nth_error l i) ;;
  Ok (x, firstn i l ++ skipn (S i) l).

(** [ls[i].append(x)] *)
Fixpoint appendAt (i : nat) (x : Z) (ls : list (list Z)) : result (list (list Z)) :=
  match ls, i with
  | [], _ => Raise IndexError
  | l :: rest, O => Ok ((l ++ [x]) :: rest)
  | l :: rest, S j => rest' <- appendAt j x rest ;; Ok (l :: rest')
  end.

(** The variables of the loop that sorts the target faces into islands. *)
Record Sorting : Type := mkSorting {
  islands : list (list Z);
  currentisle : nat;
  currentface : nat;
  found : bool;
  hfaces : list Z
}.

(** The body of the [while hfaces:] loop. *)
Definition sortStep (faceset : list Face) (st : Sorting) : result Sorting :=
  if negb (found st) then
    isle <- of_option IndexError (nth_error (islands st) (currentisle st)) ;;
    if (currentface st + 1 <? List.length isle)%nat then
      Ok {| islands := islands st; currentisle := currentisle st;
            currentface := (currentface st + 1)%nat; found := true;
            hfaces := hfaces st |}
    else
      p <- pop 0 (hfaces st) ;;
      Ok {| islands := islands st ++ [[fst p]];
            currentisle := (currentisle st + 1)%nat;
            currentface := 0%nat; found := true; hfaces := snd p |}
  else
    isle <- of_option IndexError (nth_error (islands st) (currentisle st)) ;;
    hface <- of_option IndexError (nth_error isle (currentface st)) ;;
    f <- findNeighbour faceset hface (hfaces st) ;;
    match f with
    | Some i =>
        p <- pop i (hfaces st) ;;
        islands' <- appendAt (currentisle st) (fst p) (islands st) ;;
        Ok {| islands := islands'; currentisle := currentisle st;
              currentface := currentface st; found := found st; hfaces := snd p |}
    | None =>
        Ok {| islands := islands st; currentisle := currentisle st;
              currentface := currentface st; found := false; hfaces := hfaces st |}
    end.

(** The loop, run for at most [fuel] iterations: [None] when it is still
    running after them. *)
Fixpoint sortLoop (faceset : list Face) (fuel : nat) (st : Sorting)
  : option (result (list (list Z))) :=
  match hfaces st with
  | [] => Some (Ok (islands st))
  | _ :: _ =>
      match fuel with
      | O => None
      | S fuel' =>
          match sortStep faceset st with
          | Raise e => Some (Raise e)
          | Ok st' => sortLoop faceset fuel' st'
          end
      end
  end.

(** [islands = [[hfaces.pop(0)]]] and the loop. *)
Definition sortIslands (faceset : list Face) (fuel : nat) (hfaces0 : list Z)
  : option (result (list (list Z))) :=
  match pop 0 hfaces0 with
  | Raise e => Some (Raise e)
  | Ok p =>
      sortLoop faceset fuel
        {| islands := [[fst p]]; currentisle := 0%nat; currentface := 0%nat;
           found := true; hfaces := snd p |}
  end.

(** [fset], the faces of an island.  A hashcode [find] does not know would
    leave [None] in the list handed to [Part.makeCompound]; the model stops
    there with [TypeError].  The islands hold target faces, which [find]
    knows. *)
Fixpoint islandFaces (faceset : list Face) (isle : list Z) : result (list Face) :=
  match isle with
  | [] => Ok []
  | i :: rest =>
      f <- of_option TypeError (find faceset i) ;;
      fset <- islandFaces faceset rest ;;
      Ok (f :: fset)
  end.

(** The new face of one island. *)
Definition islandFace (faceset : list Face) (isle : list Z) : result Face :=
  fset <- islandFaces faceset isle ;;
  bounds <- getBoundary (AList fset) ;;
  w <- Part_Wire (sortEdges bounds) ;;
  shp <- Part_Face w ;;
  h0 <- of_option IndexError (nth_error isle 0) ;;
  f0 <- findFace faceset h0 ;;
  if negb (Vector_eqb (normalAt shp half half) (normalAt f0 half half))
  then Ok (reverse shp)
  else Ok shp.

Fixpoint islandsFaces (faceset : list Face) (isles : list (list Z))
    (newfaces : list Face) (treated : list Z) : result (list Face * list Z) :=
  match isles with
  | [] => Ok (newfaces, treated)
  | isle :: rest =>
      shp <- islandFace faceset isle ;;
      islandsFaces faceset rest (newfaces ++ [shp]) (treated ++ isle)
  end.

(** The target faces of a face set, in the order the loop receives them. *)
Definition targetFacesOf (faceset : list Face) : result (list Z) :=
  let lut := buildLut faceset in
  targethedges <- targetEdges faceset lut (sharedEdges lut) [] ;;
  targetFaces lut targethedges [].

(** What follows the loop. *)
Definition rebuild (shape : Shape) (isles : list (list Z)) : result Shape :=
  let faceset := Faces shape in
  p <- islandsFaces faceset isles [] [] ;;
  let newfaces :=
    fst p ++ filter (fun f => negb (Z_in (faceHashCode f) (snd p))) faceset in
  fshape <- makeShell newfaces ;;
  if isClosed shape then makeSolid fshape else Ok fshape.

Definition cleanFaces (fuel : nat) (shape : Shape) : option (result Shape) :=
  let faceset := Faces shape in
  match targetFacesOf faceset with
  | Raise e => Some (Raise e)
  | Ok hfaces0 =>
      match sortIslands faceset fuel hfaces0 with
      | None => None
      | Some (Raise e) => Some (Raise e)
      | Some (Ok isles) => Some (rebuild shape isles)
      end
  end.
End Faces.

(** * Reference definitions for the statements *)

Section Fill.
Context {V A : Type} (key : A -> Z) (upd : option V -> A -> V).

(** A table filled one item at a time, each item changing the entry of
    its key: [upd old item] is the new entry. *)
Definition fill (d : dict V) (a : A) : dict V :=
  dict_set (key a) (upd (dict_get (key a) d) a) d.

Definition entry (k : Z) (o : option V) (a : A) : option V :=
  if key a =? k then Some (upd o a) else o.
End Fill.

Definition nextCount (o : option nat) (_ : Edge) : nat :=
  match o with
  | Some n => (n + 1)%nat
  | None => 1%nat
  end.

(** The adjacency count of an edge within a group of faces: the number of
    times its hash code occurs in the edge lists of the faces. *)
Definition occurrences (faces : list Face) (h : Z) : nat :=
  count_occ Z.eq_dec (map edgeHashCode (flat_map faceEdges faces)) h.

Definition onceIn (faces : list Face) (e : Edge) : bool :=
  (occurrences faces (edgeHashCode e) =? 1)%nat.

(** The rounded distance of a vertex from the plane of the first face,
    which [isCoplanar] compares with the tolerance. *)
Definition deviation {K : Kernel} (face0 : Face) (v0 v : Vertex) : Q :=
  round_precision
    (Length (project (Vector_sub (Point v) (Point v0)) (normalAt face0 0 0))).

Definition offPlane {K : Kernel} (face0 : Face) (v0 : Vertex) (tolerance : Q)
    (v : Vertex) : bool :=
  Qgtb (deviation face0 v0 v) tolerance.

(** The wire [bind] hands to the kernel as the outer boundary when both
    wires are closed. *)
Definition outerWire (w1 w2 : Wire) : option Wire := hd_error (closedWires w1 w2).

(** The pairs (edge, face) of a face set, by hash code, in the order
    [cleanFaces] visits them. *)
Definition ownerships (faceset : list Face) : list (Z * Z) :=
  flat_map (fun f => map (fun e => (edgeHashCode e, faceHashCode f)) (faceEdges f))
           faceset.

(** The faces that own an edge, once for every time their edge list names
    it. *)
Definition owners (faceset : list Face) (k : Z) : list Z :=
  map snd (filter (fun p => fst p =? k) (ownerships faceset)).

(** A table of lists: the entry of a key collects, in order, what [g] gives
    for its items. *)
Definition collect {A B : Type} (g : A -> B) (o : option (list B)) (a : A) : list B :=
  match o with
  | Some l => l ++ [g a]
  | None => [g a]
  end.

(** Equal vectors: equal components. *)
Definition Vector_eq (a b : Vector) : Prop :=
  let '(ax, ay, az) := a in
  let '(bx, by_, bz) := b in
  (ax == bx /\ ay == by_ /\ az == bz)%Q.

(** The test of [cleanFaces] on a shared edge. *)
Definition sameNormals (faceset : list Face) (lut : dict (list Z)) (hedge : Z) : bool :=
  match dict_get hedge lut with
  | Some (h0 :: h1 :: _) =>
      match find faceset h0, find faceset h1 with
      | Some f0, Some f1 => Vector_eqb (normalAt f0 half half) (normalAt f1 half half)
      | _, _ => false
      end
  | _ => false
  end.

(** A target edge: an edge with two owners whose faces have equal normals
    at (0.5, 0.5). *)
Definition isTargetEdge (faceset : list Face) (k : Z) : Prop :=
  exists h0 h1 f0 f1,
    owners faceset k = [h0; h1]
    /\ find faceset h0 = Some f0 /\ find faceset h1 = Some f1
    /\ Vector_eq (normalAt f0 half half) (normalAt f1 half half).

(** The number of iterations the sorting loop has left at most: a step
    takes a face from [hfaces], or moves to the next face of the island,
    or gives up the search from the current one. *)
Definition stepsLeft (st : Sorting) : nat :=
  (3 * List.length (hfaces st)
   + 2 * (List.length (nth (currentisle st) (islands st) []) - currentface st)
   + (if found st then 1 else 0))%nat.

(** What the loop keeps true, for the target faces [hfaces0] it started
    with: the island it works on is the last one, [currentface] is one of
    its places, no island is empty, and the islands and [hfaces] together
    hold the target faces, each once. *)
Definition sorting (hfaces0 : list Z) (st : Sorting) : Prop :=
  (exists done isle,
     islands st = done ++ [isle]
     /\ currentisle st = List.length done
     /\ (currentface st < List.length isle)%nat)
  /\ Forall (fun isle => isle <> []) (islands st)
  /\ Permutation (concat (islands st) ++ hfaces st) hfaces0.

(** * A small kernel to run the functions on

    Flat polygons: every wire the kernel builds is closed, every face it
    builds has the normal of the plane z = 0, and a compound lists each
    edge once. *)

Module Flat.
Definition up : Vector := (0, 0, 1)%Q.

Definition negate (v : Vector) : Vector :=
  let '(x, y, z) := v in (- x, - y, - z)%Q.

Definition sub (a b : Vector) : Vector :=
  let '(ax, ay, az) := a in
  let '(bx, by_, bz) := b in
  (ax - bx, ay - by_, az - bz)%Q.

Definition dot (a b : Vector) : Q :=
  let '(ax, ay, az) := a in
  let '(bx, by_, bz) := b in
  (ax * bx + ay * by_ + az * bz)%Q.

Definition scale (v : Vector) (c : Q) : Vector :=
  let '(x, y, z) := v in (x * c, y * c, z * c)%Q.

(** The projection of [u] on [v]. *)
Definition projection (u v : Vector) : Vector :=
  if Qeq_bool (dot v v) 0 then (0, 0, 0)%Q else scale v (dot u v / dot v v).

(** Exact on the vectors along an axis, which the projections on [up]
    are. *)
Definition axisLength (v : Vector) : Q :=
  let '(x, y, z) := v in (Qabs x + Qabs y + Qabs z)%Q.

Fixpoint uniqueEdges (seen : list Z) (es : list Edge) : list Edge :=
  match es with
  | [] => []
  | e :: rest =>
      if Z_in (edgeHashCode e) seen then uniqueEdges seen rest
      else e :: uniqueEdges (edgeHashCode e :: seen) rest
  end.

Definition compound (fs : list Face) : Shape :=
  {| Faces := fs; Edges := uniqueEdges [] (flat_map faceEdges fs); isClosed := false |}.

Definition wire (es : list Edge) : result Wire :=
  match es with
  | [] => Raise OCCError
  | _ :: _ =>
      Ok {| wireEdges := es; wireVertexes := []; wireIsClosed := true;
            wireDiagonalLength := 1 |}
  end.

Definition face (w : Wire) : result Face :=
  if wireIsClosed w then
    Ok {| faceHashCode := 100 + fold_left Z.add (map edgeHashCode (wireEdges w)) 0;
          faceEdges := wireEdges w; faceVertexes := wireVertexes w;
          normalAt := fun _ _ => up; faceIsValid := true |}
  else Raise OCCError.

(** The outer wire comes first and has to be the larger one. *)
Definition faceOfWires (ws : list Wire) : result Face :=
  match ws with
  | [outer; inner] =>
      if Qgtb (wireDiagonalLength outer) (wireDiagonalLength inner)
      then face outer else Raise OCCError
  | _ => Raise OCCError
  end.

Definition lineSegment (p q : Vector) : result Edge :=
  if Vector_eqb p q then Raise OCCError
  else Ok {| edgeHashCode := 1000; edgeReversed := false |}.

Definition shell (fs : list Face) : result Shape :=
  match fs with
  | [] => Raise OCCError
  | _ :: _ => Ok (compound fs)
  end.

Definition solid (s : Shape) : result Shape :=
  Ok {| Faces := Faces s; Edges := Edges s; isClosed := true |}.

Definition reversed (f : Face) : Face :=
  {| faceHashCode := faceHashCode f; faceEdges := faceEdges f;
     faceVertexes := faceVertexes f;
     normalAt := fun u v => negate (normalAt f u v);
     faceIsValid := faceIsValid f |}.

Definition kernel : Kernel :=
  {| sortEdges := fun es => es;
     Part_Wire := wire;
     Part_Face := face;
     Part_Face_wires := faceOfWires;
     Part_LineSegment := lineSegment;
     makeCompound := compound;
     makeShell := shell;
     makeSolid := solid;
     reverse := reversed;
     Vector_sub := sub;
     project := projection;
     Length := axisLength;
     round_precision := fun x => x |}.

Definition edge (h : Z) : Edge := {| edgeHashCode := h; edgeReversed := false |}.
Definition vertex (x y z : Q) : Vertex := {| Point := (x, y, z) |}.

(** Two unit squares in the plane z = 0 that share the edge 2. *)
Definition squareA : Face :=
  {| faceHashCode := 10; faceEdges := [edge 1; edge 2; edge 3; edge 4];
     faceVertexes := [vertex 0 0 0; vertex 1 0 0; vertex 1 1 0; vertex 0 1 0];
     normalAt := fun _ _ => up; faceIsValid := true |}.

Definition squareB : Face :=
  {| faceHashCode := 20;
     faceEdges := [edge 5; edge 6; edge 7; {| edgeHashCode := 2; edgeReversed := true |}];
     faceVertexes := [vertex 1 0 0; vertex 2 0 0; vertex 2 1 0; vertex 1 1 0];
     normalAt := fun _ _ => up; faceIsValid := true |}.

(** A square standing on the edge 3 of [squareA]. *)
Definition squareC : Face :=
  {| faceHashCode := 30;
     faceEdges := [{| edgeHashCode := 3; edgeReversed := true |}; edge 8; edge 9; edge 11];
     faceVertexes := [vertex 0 1 0; vertex 1 1 0; vertex 1 1 1; vertex 0 1 1];
     normalAt := fun _ _ => (0, 1, 0)%Q; faceIsValid := true |}.

Definition twoSquares : Shape := compound [squareA; squareB].

(** The face [cleanFaces] merges the two squares into, and its shell. *)
Definition merged : Face :=
  {| faceHashCode := 126;
     faceEdges := [edge 1; edge 3; edge 4; edge 5; edge 6; edge 7];
     faceVertexes := []; normalAt := fun _ _ => up; faceIsValid := true |}.

Definition mergedShell : Shape := compound [merged].

Definition closedWire (d : Q) (es : list Edge) : Wire :=
  {| wireEdges := es; wireVertexes := []; wireIsClosed := true;
     wireDiagonalLength := d |}.
End Flat.

(** A shape whose edge list names an edge, 99, that none of its faces
    has. *)
Definition Flat_stray : Shape :=
  {| Faces := [Flat.squareA]; Edges := [Flat.edge 1; Flat.edge 99]; isClosed := false |}.


(** The test of [findNeighbour] on two faces, by hashcode: the second has
    an edge whose hash code is one of the first's. *)
Definition sharesEdge (faceset : list Face) (h h' : Z) : bool :=
  match find faceset h, find faceset h' with
  | Some f, Some f' =>
      existsb (fun ee => Z_in (edgeHashCode ee) (map edgeHashCode (faceEdges f)))
              (faceEdges f')
  | _, _ => false
  end.

(** Every face of an island but the first has an edge of a face before it
    in the island. *)
Definition connected (faceset : list Face) (isle : list Z) : Prop :=
  forall pre x post,
    isle = pre ++ x :: post -> pre <> [] ->
    exists y, In y pre /\ sharesEdge faceset y x = true.

(** No face of an island has an edge of a face of a later island. *)
Fixpoint separated (faceset : list Face) (isles : list (list Z)) : Prop :=
  match isles with
  | [] => True
  | isle :: rest =>
      (forall x y, In x isle -> In y (concat rest) -> sharesEdge faceset x y = false)
      /\ separated faceset rest
  end.

(** What the loop keeps true of the faces it has searched from: the faces
    of the islands before the current one, the faces of the current island
    before [currentface], and [currentface] itself once [found] is
    [False], have no edge of a face still in [hfaces]. *)
Definition searched (faceset : list Face) (st : Sorting) : Prop :=
  forall done isle,
    islands st = done ++ [isle] ->
    Forall (connected faceset) (islands st)
    /\ separated faceset (islands st)
    /\ (forall x y, In x (concat done) -> In y (hfaces st) ->
                    sharesEdge faceset x y = false)
    /\ (forall p x y, (p < currentface st)%nat -> nth_error isle p = Some x ->
                      In y (hfaces st) -> sharesEdge faceset x y = false)
    /\ (found st = false ->
        forall x y, nth_error isle (currentface st) = Some x ->
                    In y (hfaces st) -> sharesEdge faceset x y = false).

(** Two more unit squares in the plane z = 0, sharing the edge 22, away
    from the first two. *)
Definition Flat_squareD : Face :=
  {| faceHashCode := 40;
     faceEdges := [Flat.edge 21; Flat.edge 22; Flat.edge 23; Flat.edge 24];
     faceVertexes := [Flat.vertex 5 0 0; Flat.vertex 6 0 0; Flat.vertex 6 1 0;
                      Flat.vertex 5 1 0];
     normalAt := fun _ _ => Flat.up; faceIsValid := true |}.

Definition Flat_squareE : Face :=
  {| faceHashCode := 50;
     faceEdges := [Flat.edge 25; Flat.edge 26; Flat.edge 27;
                   {| edgeHashCode := 22; edgeReversed := true |}];
     faceVertexes := [Flat.vertex 6 0 0; Flat.vertex 7 0 0; Flat.vertex 7 1 0;
                      Flat.vertex 6 1 0];
     normalAt := fun _ _ => Flat.up; faceIsValid := true |}.

Definition Flat_fourSquares : list Face :=
  [Flat.squareA; Flat_squareD; Flat.squareB; Flat_squareE; Flat.squareC].

(** The square of [Flat.squareA] once more, on the same four edges. *)
Definition Flat_squareA' : Face :=
  {| faceHashCode := 11;
     faceEdges := map (fun h => {| edgeHashCode := h; edgeReversed := true |}) [4; 3; 2; 1];
     faceVertexes := faceVertexes Flat.squareA;
     normalAt := fun _ _ => Flat.up; faceIsValid := true |}.

(** * Properties *)

(** ** Dictionaries *)

Section DictFacts.
Context {V : Type}.

Lemma dict_get_set (k k' : Z) (v : V) (d : dict V) :
  dict_get k (dict_set k' v d) = if k' =? k then Some v else dict_get k d.
Proof.
  induction d as [|[k0 v0] d IH]; simpl.
  - destruct (k' =? k); reflexivity.
  - destruct (k0 =? k') eqn:E0; simpl.
    + apply Z.eqb_eq in E0; subst k0.
      destruct (k' =? k); reflexivity.
    + destruct (k0 =? k) eqn:E1.
      * apply Z.eqb_eq in E1; subst k0. rewrite Z.eqb_sym, E0. reflexivity.
      * exact IH.
Qed.

Context {A : Type} (key : A -> Z) (upd : option V -> A -> V).

Lemma dict_get_fill (k : Z) (items : list A) (d : dict V) :
  dict_get k (fold_left (fill key upd) items d) =
  fold_left (entry key upd k) items (dict_get k d).
Proof.
  revert d; induction items as [|a items IH]; intro d; simpl; [reflexivity|].
  rewrite IH. f_equal. unfold fill, entry. rewrite dict_get_set.
  destruct (key a =? k) eqn:E; [apply Z.eqb_eq in E; rewrite E|]; reflexivity.
Qed.

Lemma dict_keys_set (k : Z) (v : V) (d : dict V) :
  dict_keys (dict_set k v d) =
  if Z_in k (dict_keys d) then dict_keys d else dict_keys d ++ [k].
Proof.
  unfold dict_keys, Z_in.
  induction d as [|[k0 v0] d IH]; simpl; [reflexivity|].
  rewrite (Z.eqb_sym k k0).
  destruct (k0 =? k); simpl; [reflexivity|].
  rewrite IH. destruct (existsb (Z.eqb k) (map fst d)); reflexivity.
Qed.
End DictFacts.

Lemma Z_in_In (x : Z) (l : list Z) : Z_in x l = true <-> In x l.
Proof.
  unfold Z_in. rewrite existsb_exists. split.
  - intros (y & Hy & E). apply Z.eqb_eq in E. now subst.
  - intro H. exists x. split; [assumption | apply Z.eqb_refl].
Qed.

Lemma Z_in_not_In (x : Z) (l : list Z) : Z_in x l = false <-> ~ In x l.
Proof.
  rewrite <- Z_in_In. destruct (Z_in x l); split; congruence.
Qed.

Lemma fold_left_map {A B C : Type} (f : A -> C -> A) (g : B -> C) (l : list B) (a : A) :
  fold_left f (map g l) a = fold_left (fun acc b => f acc (g b)) l a.
Proof.
  revert a; induction l as [|b l IH]; intro a; simpl; [reflexivity | apply IH].
Qed.

Lemma collect_entries {A B : Type} (key : A -> Z) (g : A -> B) (k : Z)
    (items : list A) (o : option (list B)) :
  fold_left (entry key (collect g) k) items o =
  match map g (filter (fun a => key a =? k) items) with
  | [] => o
  | l => Some (match o with Some l0 => l0 | None => [] end ++ l)
  end.
Proof.
  revert o; induction items as [|a items IH]; intro o; simpl; [reflexivity|].
  rewrite IH. unfold entry.
  destruct (key a =? k); simpl; [|reflexivity].
  destruct (map g (filter (fun a0 => key a0 =? k) items)); destruct o; simpl;
    rewrite <- ?app_assoc; reflexivity.
Qed.

Lemma dict_get_In {V : Type} (k : Z) (v : V) (d : dict V) :
  dict_get k d = Some v -> In (k, v) d.
Proof.
  induction d as [|[k0 v0] d IH]; simpl; [discriminate|].
  destruct (k0 =? k) eqn:E.
  - apply Z.eqb_eq in E. intro H. injection H as <-. subst. now left.
  - intro H. right. now apply IH.
Qed.

Lemma In_dict_get {V : Type} (k : Z) (v : V) (d : dict V) :
  NoDup (dict_keys d) -> In (k, v) d -> dict_get k d = Some v.
Proof.
  unfold dict_keys. induction d as [|[k0 v0] d IH]; simpl; [contradiction|].
  intros Hnd [H|H].
  - injection H as -> ->. now rewrite Z.eqb_refl.
  - inversion Hnd as [|? ? Hnot Hnd']; subst.
    destruct (k0 =? k) eqn:E.
    + apply Z.eqb_eq in E; subst k0. exfalso. apply Hnot.
      change k with (fst (k, v)). now apply in_map.
    + now apply IH.
Qed.

Lemma dict_set_NoDup {V : Type} (k : Z) (v : V) (d : dict V) :
  NoDup (dict_keys d) -> NoDup (dict_keys (dict_set k v d)).
Proof.
  intro Hnd. rewrite dict_keys_set.
  destruct (Z_in k (dict_keys d)) eqn:E; [assumption|].
  apply Z_in_not_In in E.
  apply NoDup_app; [assumption | repeat constructor; intros [] |].
  intros x Hx [<-|[]]. contradiction.
Qed.

Lemma fill_NoDup {V A : Type} (key : A -> Z) (upd : option V -> A -> V)
    (items : list A) (d : dict V) :
  NoDup (dict_keys d) -> NoDup (dict_keys (fold_left (fill key upd) items d)).
Proof.
  revert d; induction items as [|a items IH]; intros d Hnd; simpl; [assumption|].
  apply IH. now apply dict_set_NoDup.
Qed.

Lemma fold_left_flat_map {A B C : Type} (f : A -> C -> A) (g : B -> list C)
    (l : list B) (a : A) :
  fold_left (fun acc b => fold_left f (g b) acc) l a = fold_left f (flat_map g l) a.
Proof.
  revert a; induction l as [|b l IH]; intro a; simpl; [reflexivity|].
  rewrite fold_left_app. apply IH.
Qed.

Lemma fold_left_pointwise {A B : Type} (f g : A -> B -> A) (l : list B) (a : A) :
  (forall x y, f x y = g x y) -> fold_left f l a = fold_left g l a.
Proof.
  intro H. revert a; induction l as [|b l IH]; intro a; simpl; [reflexivity|].
  rewrite H. apply IH.
Qed.

(** ** getBoundary *)

Section BoundaryFacts.
Context {K : Kernel}.

Lemma countEdge_fill (table : dict nat) (e : Edge) :
  countEdge table e = fill edgeHashCode nextCount table e.
Proof.
  unfold countEdge, fill, nextCount.
  destruct (dict_get (edgeHashCode e) table); reflexivity.
Qed.

Lemma count_entries (k : Z) (es : list Edge) (o : option nat) :
  fold_left (entry edgeHashCode nextCount k) es o =
  match count_occ Z.eq_dec (map edgeHashCode es) k with
  | O => o
  | S c => Some (match o with Some n => n | None => O end + S c)%nat
  end.
Proof.
  revert o; induction es as [|e es IH]; intro o; simpl; [reflexivity|].
  rewrite IH. unfold entry.
  destruct (Z.eq_dec (edgeHashCode e) k) as [E|E].
  - apply Z.eqb_eq in E. rewrite E.
    destruct (count_occ Z.eq_dec (map edgeHashCode es) k);
      destruct o; simpl; f_equal; lia.
  - apply Z.eqb_neq in E. rewrite E. reflexivity.
Qed.

Lemma boundaryTable_get (faces : list Face) (k : Z) :
  dict_get k (boundaryTable faces) =
  match occurrences faces k with
  | O => None
  | S c => Some (S c)
  end.
Proof.
  unfold boundaryTable, occurrences.
  rewrite fold_left_flat_map.
  rewrite (fold_left_pointwise _ (fill edgeHashCode nextCount)) by apply countEdge_fill.
  rewrite dict_get_fill, count_entries. reflexivity.
Qed.

Lemma boundaryFilter_known (faces : list Face) (edges bound : list Edge) :
  (forall e, In e edges -> occurrences faces (edgeHashCode e) <> O) ->
  boundaryFilter (boundaryTable faces) edges bound =
  Ok (bound ++ filter (onceIn faces) edges).
Proof.
  revert bound; induction edges as [|e edges IH]; intros bound H; simpl.
  - now rewrite app_nil_r.
  - rewrite boundaryTable_get.
    specialize (H e (or_introl eq_refl)) as He.
    unfold onceIn at 1.
    destruct (occurrences faces (edgeHashCode e)) as [|c]; [contradiction|].
    simpl. rewrite IH by (intros; apply H; now right).
    destruct c; simpl; [rewrite <- app_assoc|]; reflexivity.
Qed.

Lemma boundaryFilter_unknown (faces : list Face) (edges bound : list Edge) :
  (exists e, In e edges /\ occurrences faces (edgeHashCode e) = O) ->
  boundaryFilter (boundaryTable faces) edges bound = Raise KeyError.
Proof.
  revert bound; induction edges as [|e edges IH]; intros bound (x & Hx & Ex).
  - contradiction.
  - simpl. rewrite boundaryTable_get.
    destruct (occurrences faces (edgeHashCode e)) as [|c] eqn:Ec; [reflexivity|].
    simpl. apply IH. exists x. split; [|assumption].
    destruct Hx as [->|]; [congruence | assumption].
Qed.

Lemma filter_all {A : Type} (p : A -> bool) (l : list A) :
  (forall x, In x l -> p x = true) -> filter p l = l.
Proof.
  induction l as [|x l IH]; intro H; simpl; [reflexivity|].
  rewrite (H x (or_introl eq_refl)), IH; [reflexivity|].
  intros; apply H; now right.
Qed.

Lemma count_occ_NoDup_once (l : list Z) (x : Z) :
  NoDup l -> In x l -> count_occ Z.eq_dec l x = 1%nat.
Proof.
  intros Hnd Hin. apply NoDup_count_occ with (decA := Z.eq_dec) (x := x) in Hnd.
  apply (count_occ_In Z.eq_dec) in Hin. lia.
Qed.
End BoundaryFacts.

(** C5.  [getBoundary] returns the edges of the shape's own edge list whose
    adjacency count over the edge lists of the group's faces is 1, provided
    every edge of the shape belongs to one of the faces; without an edge
    shared between the faces that is the whole edge list, and for a single
    face, whose edge list names each edge once, its own edge list. *)
Theorem getBoundary_single_owner {K : Kernel} (g : FaceGroup) :
  let shape := groupShape g in
  ((forall e, In e (Edges shape) -> occurrences (Faces shape) (edgeHashCode e) <> O) ->
   getBoundary g = Ok (filter (onceIn (Faces shape)) (Edges shape)))
  /\ ((forall e, In e (Edges shape) -> occurrences (Faces shape) (edgeHashCode e) = 1%nat) ->
      getBoundary g = Ok (Edges shape))
  /\ (forall f, g = AShape (shapeOfFace f) ->
      NoDup (map edgeHashCode (faceEdges f)) ->
      getBoundary g = Ok (faceEdges f)).
Proof.
  intro shape. unfold getBoundary. fold shape.
  split; [|split].
  - intro H. now rewrite (boundaryFilter_known _ _ [] H).
  - intro H. rewrite boundaryFilter_known.
    + simpl. f_equal. apply filter_all. intros e He. unfold onceIn.
      rewrite (H e He). reflexivity.
    + intros e He. rewrite (H e He). discriminate.
  - intros f -> Hnd. subst shape. simpl.
    assert (Hone : forall e, In e (faceEdges f) ->
                   occurrences [f] (edgeHashCode e) = 1%nat).
    { intros e He. unfold occurrences. simpl. rewrite app_nil_r.
      apply count_occ_NoDup_once; [assumption|]. now apply in_map. }
    rewrite boundaryFilter_known.
    + simpl. f_equal. apply filter_all. intros e He. unfold onceIn.
      rewrite (Hone e He). reflexivity.
    + intros e He. rewrite (Hone e He). discriminate.
Qed.

Lemma getBoundary_single_owner_witness :
  @getBoundary Flat.kernel (AList [Flat.squareA; Flat.squareB]) =
    Ok (filter (onceIn [Flat.squareA; Flat.squareB]) (Edges Flat.twoSquares))
  /\ @getBoundary Flat.kernel (AList [Flat.squareA]) = Ok (faceEdges Flat.squareA)
  /\ @getBoundary Flat.kernel (AShape (shapeOfFace Flat.squareA)) =
       Ok (faceEdges Flat.squareA).
Proof.
  split; [|split].
  - apply (proj1 (@getBoundary_single_owner Flat.kernel
                      (AList [Flat.squareA; Flat.squareB]))).
    simpl. intros e He.
    repeat (destruct He as [<-|He]; [vm_compute; discriminate|]). contradiction.
  - apply (proj1 (proj2 (@getBoundary_single_owner Flat.kernel (AList [Flat.squareA])))).
    simpl. intros e He.
    repeat (destruct He as [<-|He]; [vm_compute; reflexivity|]). contradiction.
  - apply (proj2 (proj2 (@getBoundary_single_owner Flat.kernel
                             (AShape (shapeOfFace Flat.squareA)))) Flat.squareA eq_refl).
    simpl. repeat constructor; simpl; intuition discriminate.
Defined.

(** ** concatenate *)

(** C7.  When the kernel fails to build the wire or the face, [concatenate]
    prints its message and returns its argument; when both are built it
    returns the face if the wire is closed and the wire otherwise. *)
Theorem concatenate_degrades {K : Kernel} (shape : FaceGroup) (edges : list Edge) :
  getBoundary shape = Ok edges ->
  ((Part_Wire (sortEdges edges) = Raise OCCError
    \/ (exists w, Part_Wire (sortEdges edges) = Ok w /\ Part_Face w = Raise OCCError)) ->
   concatenate shape =
     (["DraftGeomUtils: Couldn't join faces into one"%string], Ok (TheShape shape)))
  /\ (forall w f,
      Part_Wire (sortEdges edges) = Ok w -> Part_Face w = Ok f ->
      concatenate shape = ([], Ok (if wireIsClosed w then TheFace f else TheWire w))).
Proof.
  intro Hb. unfold concatenate. rewrite Hb. split.
  - intros [Hw | (w & Hw & Hf)]; rewrite Hw; simpl; [|rewrite Hf]; reflexivity.
  - intros w f Hw Hf. rewrite Hw. simpl. rewrite Hf. simpl.
    destruct (wireIsClosed w); reflexivity.
Qed.

Lemma concatenate_degrades_witness :
  @concatenate Flat.kernel (AList []) =
    (["DraftGeomUtils: Couldn't join faces into one"%string], Ok (TheShape (AList [])))
  /\ exists w f,
       @concatenate Flat.kernel (AShape Flat.twoSquares) =
         ([], Ok (if wireIsClosed w then TheFace f else TheWire w)).
Proof.
  split.
  - apply (proj1 (@concatenate_degrades Flat.kernel (AList []) [] eq_refl)).
    left. reflexivity.
  - eexists. eexists.
    apply (proj2 (@concatenate_degrades Flat.kernel (AShape Flat.twoSquares) _ eq_refl));
      reflexivity.
Defined.

(** ** removeSplitter *)

Lemma lookupEdge_fill (lookup : dict (list Edge)) (e : Edge) :
  lookupEdge lookup e = fill edgeHashCode (collect (fun x => x)) lookup e.
Proof.
  unfold lookupEdge, fill, collect.
  destruct (dict_get (edgeHashCode e) lookup); reflexivity.
Qed.

Lemma splitterLookup_fill (faces : list Face) :
  splitterLookup faces =
  fold_left (fill edgeHashCode (collect (fun x => x))) (flat_map faceEdges faces) [].
Proof.
  unfold splitterLookup. rewrite fold_left_flat_map.
  apply fold_left_pointwise, lookupEdge_fill.
Qed.

Lemma splitterLookup_get (faces : list Face) (k : Z) :
  dict_get k (splitterLookup faces) =
  match filter (fun e => edgeHashCode e =? k) (flat_map faceEdges faces) with
  | [] => None
  | l => Some l
  end.
Proof.
  rewrite splitterLookup_fill, dict_get_fill, collect_entries, map_id.
  simpl. destruct (filter _ _); reflexivity.
Qed.

Lemma count_occ_filter (es : list Edge) (k : Z) :
  count_occ Z.eq_dec (map edgeHashCode es) k =
  List.length (filter (fun e => edgeHashCode e =? k) es).
Proof.
  induction es as [|e es IH]; simpl; [reflexivity|].
  destruct (Z.eq_dec (edgeHashCode e) k) as [E|E].
  - apply Z.eqb_eq in E. rewrite E. simpl. now f_equal.
  - apply Z.eqb_neq in E. now rewrite E.
Qed.

(** The edges [removeSplitter] keeps are the edges of the faces whose hash
    code occurs once. *)
Lemma singleEdges_once (faces : list Face) (e : Edge) :
  In e (singleEdges (splitterLookup faces)) <->
  In e (flat_map faceEdges faces) /\ occurrences faces (edgeHashCode e) = 1%nat.
Proof.
  unfold singleEdges, dict_values, occurrences.
  rewrite count_occ_filter, in_flat_map. split.
  - intros (v & Hv & He). apply in_map_iff in Hv. destruct Hv as ([k v'] & <- & Hin).
    simpl in He. destruct v' as [|e0 [|e1 v']]; try contradiction.
    destruct He as [<-|[]].
    apply In_dict_get in Hin;
      [|rewrite splitterLookup_fill; apply fill_NoDup; constructor].
    rewrite splitterLookup_get in Hin.
    destruct (filter _ _) as [|x l] eqn:Ef; [discriminate|].
    injection Hin as -> ->.
    assert (He : In e0 (filter (fun e => edgeHashCode e =? k) (flat_map faceEdges faces)))
      by (rewrite Ef; now left).
    apply filter_In in He. destruct He as (Hin & Hk). apply Z.eqb_eq in Hk. subst k.
    split; [assumption|]. now rewrite Ef.
  - intros (Hin & Hone).
    assert (He : In e (filter (fun x => edgeHashCode x =? edgeHashCode e)
                         (flat_map faceEdges faces)))
      by (apply filter_In; split; [assumption | apply Z.eqb_refl]).
    destruct (filter _ _) as [|x [|y l]] eqn:Ef; try discriminate.
    destruct He as [<-|[]].
    exists [x]. split; [|now left].
    apply in_map_iff. exists (edgeHashCode x, [x]). split; [reflexivity|].
    apply dict_get_In. rewrite splitterLookup_get, Ef. reflexivity.
Qed.

(** C8.  [removeSplitter] builds its wire and face over the edges that occur
    once in the edge lists of the faces.  It returns [None] when the kernel
    fails to build the wire or the face, returns the face exactly when it
    is built and valid, and never raises the kernel's construction
    error. *)
Theorem removeSplitter_outcomes {K : Kernel} (shape : Shape) :
  let edges := singleEdges (splitterLookup (Faces shape)) in
  (forall e, In e edges <->
             In e (flat_map faceEdges (Faces shape))
             /\ occurrences (Faces shape) (edgeHashCode e) = 1%nat)
  /\ removeSplitter shape <> Raise OCCError
  /\ ((Part_Wire edges = Raise OCCError
       \/ (exists w, Part_Wire edges = Ok w /\ Part_Face w = Raise OCCError)) ->
      removeSplitter shape = Ok None)
  /\ (forall w face,
      Part_Wire edges = Ok w -> Part_Face w = Ok face ->
      removeSplitter shape = Ok (if faceIsValid face then Some face else None)).
Proof.
  intro edges. split; [apply singleEdges_once|].
  unfold removeSplitter. fold edges.
  split; [|split].
  - destruct (Part_Wire edges) as [w|e]; simpl.
    + destruct (Part_Face w) as [face|e]; [destruct (faceIsValid face)|destruct e];
        discriminate.
    + destruct e; discriminate.
  - intros [Hw | (w & Hw & Hf)]; rewrite Hw; simpl; [|rewrite Hf]; reflexivity.
  - intros w face Hw Hf. rewrite Hw. simpl. rewrite Hf.
    destruct (faceIsValid face); reflexivity.
Qed.

Lemma removeSplitter_outcomes_witness :
  @removeSplitter Flat.kernel Flat.twoSquares = Ok (Some Flat.merged)
  /\ @removeSplitter Flat.kernel (Flat.compound []) = Ok None.
Proof.
  split.
  - apply (proj2 (proj2 (proj2 (@removeSplitter_outcomes Flat.kernel Flat.twoSquares)))
             (Flat.closedWire 1 (faceEdges Flat.merged)) Flat.merged);
      reflexivity.
  - apply (proj1 (proj2 (proj2 (@removeSplitter_outcomes Flat.kernel (Flat.compound []))))).
    left. reflexivity.
Defined.

(** ** bind *)

Lemma Qgtb_lt (a b : Q) : Qgtb a b = true <-> (b < a)%Q.
Proof.
  unfold Qgtb. rewrite negb_true_iff, <- not_true_iff_false, Qle_bool_iff.
  split; [apply Qnot_le_lt | apply Qlt_not_le].
Qed.

Lemma Qgtb_le (a b : Q) : Qgtb a b = false <-> (a <= b)%Q.
Proof.
  unfold Qgtb. rewrite negb_false_iff. apply Qle_bool_iff.
Qed.

Lemma bind_closed {K : Kernel} (w1 w2 : Wire) :
  wireIsClosed w1 = true -> wireIsClosed w2 = true ->
  bind (Some w1) (Some w2) =
    ([], f <- Part_Face_wires (closedWires w1 w2) ;; Ok (Some f)).
Proof.
  intros H1 H2. unfold bind. rewrite H1, H2. reflexivity.
Qed.

(** C3.  With two closed wires [bind] builds the face outside of its [try]
    block: when the kernel fails to build the face of the two wires, the
    kernel's error reaches the caller, and nothing is printed. *)
Theorem bind_closed_wires_raise {K : Kernel} (w1 w2 : Wire) :
  wireIsClosed w1 = true -> wireIsClosed w2 = true ->
  Part_Face_wires (closedWires w1 w2) = Raise OCCError ->
  bind (Some w1) (Some w2) = ([], Raise OCCError).
Proof.
  intros H1 H2 Hf. rewrite (bind_closed w1 w2 H1 H2), Hf. reflexivity.
Qed.

Lemma bind_closed_wires_raise_witness :
  @bind Flat.kernel (Some (Flat.closedWire 1 [Flat.edge 1]))
                    (Some (Flat.closedWire 1 [Flat.edge 2])) = ([], Raise OCCError).
Proof.
  apply (@bind_closed_wires_raise Flat.kernel); reflexivity.
Defined.

(** C4, as stated, fails: two closed wires with the same diagonal are each
    the outer boundary for one of the two orders. *)
Lemma outerWire_swap_differs :
  ~ (forall w1 w2 : Wire,
       wireIsClosed w1 = true -> wireIsClosed w2 = true ->
       outerWire w1 w2 = outerWire w2 w1).
Proof.
  intro H.
  specialize (H (Flat.closedWire 1 [Flat.edge 1]) (Flat.closedWire 1 [Flat.edge 2])
                eq_refl eq_refl).
  vm_compute in H. discriminate H.
Qed.

(** C4, amended.  With two closed wires [bind] hands the kernel the wires
    [closedWires w1 w2], outer first.  When the diagonals differ, both
    orders of the arguments give the same list, headed by the wire with
    the larger diagonal; when they are equal, the second argument is the
    outer wire. *)
Theorem outerWire_by_diagonal {K : Kernel} (w1 w2 : Wire) :
  wireIsClosed w1 = true -> wireIsClosed w2 = true ->
  bind (Some w1) (Some w2) =
    ([], f <- Part_Face_wires (closedWires w1 w2) ;; Ok (Some f))
  /\ (~ (wireDiagonalLength w1 == wireDiagonalLength w2)%Q ->
      closedWires w1 w2 = closedWires w2 w1
      /\ exists outer inner,
           closedWires w1 w2 = [outer; inner]
           /\ (wireDiagonalLength inner < wireDiagonalLength outer)%Q)
  /\ ((wireDiagonalLength w1 == wireDiagonalLength w2)%Q ->
      outerWire w1 w2 = Some w2 /\ outerWire w2 w1 = Some w1).
Proof.
  intros H1 H2. split; [apply bind_closed; assumption|].
  unfold outerWire, closedWires. split.
  - intro Hne.
    destruct (Qgtb (wireDiagonalLength w1) (wireDiagonalLength w2)) eqn:E12;
      destruct (Qgtb (wireDiagonalLength w2) (wireDiagonalLength w1)) eqn:E21.
    + apply Qgtb_lt in E12, E21. exfalso.
      apply (Qlt_irrefl (wireDiagonalLength w1)). eapply Qlt_trans; eassumption.
    + split; [reflexivity|]. exists w1, w2. split; [reflexivity|].
      now apply Qgtb_lt.
    + split; [reflexivity|]. exists w2, w1. split; [reflexivity|].
      now apply Qgtb_lt.
    + apply Qgtb_le in E12, E21. exfalso. apply Hne.
      apply Qle_antisym; assumption.
  - intro Heq.
    assert (E12 : Qgtb (wireDiagonalLength w1) (wireDiagonalLength w2) = false).
    { apply Qgtb_le. rewrite Heq. apply Qle_refl. }
    assert (E21 : Qgtb (wireDiagonalLength w2) (wireDiagonalLength w1) = false).
    { apply Qgtb_le. rewrite Heq. apply Qle_refl. }
    rewrite E12, E21. split; reflexivity.
Qed.

Lemma outerWire_by_diagonal_witness :
  outerWire (Flat.closedWire 2 [Flat.edge 1]) (Flat.closedWire 1 [Flat.edge 2]) =
    Some (Flat.closedWire 2 [Flat.edge 1])
  /\ outerWire (Flat.closedWire 1 [Flat.edge 2]) (Flat.closedWire 2 [Flat.edge 1]) =
       Some (Flat.closedWire 2 [Flat.edge 1])
  /\ outerWire (Flat.closedWire 1 [Flat.edge 1]) (Flat.closedWire 1 [Flat.edge 2]) =
       Some (Flat.closedWire 1 [Flat.edge 2]).
Proof.
  pose proof (@outerWire_by_diagonal Flat.kernel
                (Flat.closedWire 2 [Flat.edge 1]) (Flat.closedWire 1 [Flat.edge 2])
                eq_refl eq_refl) as (_ & Hdiff & _).
  pose proof (@outerWire_by_diagonal Flat.kernel
                (Flat.closedWire 1 [Flat.edge 1]) (Flat.closedWire 1 [Flat.edge 2])
                eq_refl eq_refl) as (_ & _ & Hsame).
  assert (Hne : ~ (2 == 1)%Q) by (intro E; vm_compute in E; discriminate E).
  destruct (Hdiff Hne) as (Hswap & _).
  destruct (Hsame (Qeq_refl 1)) as (Hsecond & _).
  unfold outerWire. rewrite <- Hswap.
  split; [reflexivity|]. split; [reflexivity|]. exact Hsecond.
Defined.

Lemma bind_null {K : Kernel} (w1 w2 : option Wire) :
  w1 = None \/ w2 = None -> bind w1 w2 = ([unable_to_bind], Ok None).
Proof.
  intros [-> | ->]; [|destruct w1]; reflexivity.
Qed.

Lemma bind_open_degrades {K : Kernel} (w1 w2 : Wire) :
  wireIsClosed w1 && wireIsClosed w2 = false ->
  bridgeWires w1 w2 = Raise OCCError ->
  bind (Some w1) (Some w2) = ([unable_to_bind], Ok None).
Proof.
  intros Hopen Hf. unfold bind. rewrite Hopen, Hf. reflexivity.
Qed.

(** ** isCoplanar *)

Section CoplanarFacts.
Context {K : Kernel}.
Variables (face0 : Face) (tolerance : Q).

Let base : Vector := normalAt face0 0 0.

Lemma vertexesInPlane_origin (v0 : Vertex) (vs : list Vertex) :
  hd_error (faceVertexes face0) = Some v0 ->
  vertexesInPlane base face0 tolerance vs =
  Ok (negb (existsb (offPlane face0 v0 tolerance) vs)).
Proof.
  intro H0. induction vs as [|v vs IH]; simpl; [reflexivity|].
  rewrite H0. simpl. unfold offPlane at 1, deviation. fold base.
  destruct (Qgtb _ tolerance); [reflexivity | exact IH].
Qed.

Lemma facesInPlane_origin (v0 : Vertex) (faces : list Face) :
  hd_error (faceVertexes face0) = Some v0 ->
  facesInPlane base face0 tolerance faces =
  Ok (negb (existsb (offPlane face0 v0 tolerance) (flat_map faceVertexes faces))).
Proof.
  intro H0. induction faces as [|f faces IH]; simpl; [reflexivity|].
  rewrite (vertexesInPlane_origin v0 _ H0). simpl.
  rewrite existsb_app.
  destruct (existsb _ (faceVertexes f)); simpl; [reflexivity | exact IH].
Qed.

Lemma vertexesInPlane_no_origin (vs : list Vertex) :
  hd_error (faceVertexes face0) = None ->
  vertexesInPlane base face0 tolerance vs <> Ok false.
Proof.
  intro H0. destruct vs as [|v vs]; simpl; [|rewrite H0]; discriminate.
Qed.

Lemma facesInPlane_no_origin (faces : list Face) :
  hd_error (faceVertexes face0) = None ->
  facesInPlane base face0 tolerance faces <> Ok false.
Proof.
  intro H0. induction faces as [|f faces IH]; simpl; [discriminate|].
  pose proof (vertexesInPlane_no_origin (faceVertexes f) H0) as Hv.
  destruct (vertexesInPlane base face0 tolerance (faceVertexes f)) as [[|]|e];
    simpl; [exact IH | contradiction | discriminate].
Qed.
End CoplanarFacts.

(** C6.  [isCoplanar] is [True] on a list of less than two faces, whatever
    the faces are.  On two or more faces it is [False] exactly when a
    vertex of a face after the first has a rounded distance from the plane
    of the first face, taken through its first vertex along its normal at
    (0, 0), that exceeds the tolerance; and it is [True] when the first
    face has a vertex and there is no such vertex. *)
Theorem isCoplanar_spec {K : Kernel} (tolerance : Q) :
  (forall faces, (List.length faces < 2)%nat -> isCoplanar faces tolerance = Ok true)
  /\ (forall face0 face1 others,
      isCoplanar (face0 :: face1 :: others) tolerance = Ok false <->
      exists v0 f v,
        hd_error (faceVertexes face0) = Some v0
        /\ In f (face1 :: others) /\ In v (faceVertexes f)
        /\ (tolerance < deviation face0 v0 v)%Q)
  /\ (forall face0 face1 others v0,
      hd_error (faceVertexes face0) = Some v0 ->
      (forall f v, In f (face1 :: others) -> In v (faceVertexes f) ->
                   (deviation face0 v0 v <= tolerance)%Q) ->
      isCoplanar (face0 :: face1 :: others) tolerance = Ok true).
Proof.
  split; [|split].
  - intros faces Hlen. unfold isCoplanar.
    apply Nat.ltb_lt in Hlen. rewrite Hlen. reflexivity.
  - intros face0 face1 others. unfold isCoplanar.
    cbn [List.length Nat.ltb Nat.leb nth_error of_option result_bind skipn].
    destruct (hd_error (faceVertexes face0)) as [v0|] eqn:H0.
    + rewrite (facesInPlane_origin face0 tolerance v0 _ H0).
      split.
      * intro H. injection H as H. apply negb_false_iff in H.
        apply existsb_exists in H. destruct H as (v & Hv & Hoff).
        apply (in_flat_map faceVertexes (face1 :: others)) in Hv.
        destruct Hv as (f & Hf & Hv).
        exists v0, f, v. repeat split; try assumption.
        now apply Qgtb_lt.
      * intros (v0' & f & v & Hv0 & Hf & Hv & Hoff).
        injection Hv0 as <-. f_equal. apply negb_false_iff.
        apply existsb_exists. exists v. split.
        -- apply (in_flat_map faceVertexes (face1 :: others)). exists f. now split.
        -- now apply Qgtb_lt.
    + split.
      * intro H. exfalso. revert H. now apply facesInPlane_no_origin.
      * intros (v0 & _ & _ & Hv0 & _). discriminate Hv0.
  - intros face0 face1 others v0 H0 Hall. unfold isCoplanar.
    cbn [List.length Nat.ltb Nat.leb nth_error of_option result_bind skipn].
    rewrite (facesInPlane_origin face0 tolerance v0 _ H0).
    f_equal. apply negb_true_iff. apply not_true_iff_false. intro H.
    apply existsb_exists in H. destruct H as (v & Hv & Hoff).
    apply (in_flat_map faceVertexes (face1 :: others)) in Hv.
    destruct Hv as (f & Hf & Hv).
    apply Qgtb_lt in Hoff. apply (Qlt_not_le _ _ Hoff). now apply (Hall f v).
Qed.

Lemma isCoplanar_spec_witness :
  @isCoplanar Flat.kernel [Flat.squareA] 0 = Ok true
  /\ @isCoplanar Flat.kernel [Flat.squareA; Flat.squareC] 0 = Ok false
  /\ @isCoplanar Flat.kernel [Flat.squareA; Flat.squareB] 0 = Ok true.
Proof.
  destruct (@isCoplanar_spec Flat.kernel 0) as (Hshort & Hfalse & Htrue).
  split; [|split].
  - apply Hshort. simpl. lia.
  - apply Hfalse.
    exists (Flat.vertex 0 0 0), Flat.squareC, (Flat.vertex 1 1 1).
    split; [reflexivity|]. split; [left; reflexivity|].
    split; [simpl; tauto|]. reflexivity.
  - apply (Htrue Flat.squareA Flat.squareB [] (Flat.vertex 0 0 0) eq_refl).
    intros f v [<-|[]] Hv. simpl in Hv.
    repeat (destruct Hv as [<-|Hv]; [vm_compute; discriminate|]). contradiction.
Defined.

(** ** cleanFaces: the lookup table *)

Lemma Vector_eqb_eq (a b : Vector) : Vector_eqb a b = true <-> Vector_eq a b.
Proof.
  destruct a as [[ax ay] az], b as [[bx by_] bz]. unfold Vector_eqb, Vector_eq.
  rewrite !andb_true_iff, !Qeq_bool_iff. tauto.
Qed.

Lemma lutEdge_fill (face : Z) (lut : dict (list Z)) (edge : Edge) :
  lutEdge face lut edge = fill fst (collect snd) lut (edgeHashCode edge, face).
Proof.
  unfold lutEdge, fill, collect. simpl.
  destruct (dict_get (edgeHashCode edge) lut); reflexivity.
Qed.

Lemma buildLut_fill (faceset : list Face) :
  buildLut faceset = fold_left (fill fst (collect snd)) (ownerships faceset) [].
Proof.
  unfold buildLut, ownerships.
  rewrite <- (fold_left_flat_map (fill fst (collect snd))
                (fun f => map (fun e => (edgeHashCode e, faceHashCode f)) (faceEdges f))).
  apply fold_left_pointwise. intros lut face.
  rewrite fold_left_map. apply fold_left_pointwise. intros; apply lutEdge_fill.
Qed.

Lemma buildLut_get (faceset : list Face) (k : Z) :
  dict_get k (buildLut faceset) =
  match owners faceset k with
  | [] => None
  | l => Some l
  end.
Proof.
  rewrite buildLut_fill, dict_get_fill, collect_entries. unfold owners. simpl.
  destruct (map snd _); reflexivity.
Qed.

Lemma buildLut_NoDup (faceset : list Face) : NoDup (dict_keys (buildLut faceset)).
Proof.
  rewrite buildLut_fill. apply fill_NoDup. constructor.
Qed.

Lemma sharedEdges_In (faceset : list Face) (k : Z) :
  In k (sharedEdges (buildLut faceset)) <-> List.length (owners faceset k) = 2%nat.
Proof.
  unfold sharedEdges. rewrite in_map_iff. split.
  - intros ([k' v] & <- & H). apply filter_In in H. destruct H as (Hin & Hlen).
    simpl in *. apply Nat.eqb_eq in Hlen.
    apply In_dict_get in Hin; [|apply buildLut_NoDup].
    rewrite buildLut_get in Hin.
    destruct (owners faceset k'); [discriminate|]. injection Hin as <-. exact Hlen.
  - intro Hlen. exists (k, owners faceset k). split; [reflexivity|].
    apply filter_In. split; [|simpl; now apply Nat.eqb_eq].
    apply dict_get_In. rewrite buildLut_get.
    destruct (owners faceset k); [discriminate | reflexivity].
Qed.

Lemma owners_In_faceset (faceset : list Face) (k h : Z) :
  In h (owners faceset k) -> exists f, In f faceset /\ faceHashCode f = h.
Proof.
  unfold owners, ownerships. intro H.
  apply in_map_iff in H. destruct H as ([k' h'] & <- & H).
  apply filter_In in H. destruct H as (H & _).
  apply in_flat_map in H. destruct H as (f & Hf & H).
  apply in_map_iff in H. destruct H as (e & He & _).
  injection He as _ <-. now exists f.
Qed.

Lemma find_known (faceset : list Face) (h : Z) :
  (exists f, In f faceset /\ faceHashCode f = h) ->
  exists f, find faceset h = Some f /\ faceHashCode f = h /\ In f faceset.
Proof.
  intros (f & Hf & Hh). unfold find.
  destruct (List.find (fun f0 => faceHashCode f0 =? h) faceset) as [f'|] eqn:E.
  - apply find_some in E. destruct E as (Hin & E). apply Z.eqb_eq in E.
    now exists f'.
  - apply (find_none _ _ E) in Hf. apply Z.eqb_neq in Hf. contradiction.
Qed.

Lemma find_owner (faceset : list Face) (k h : Z) :
  In h (owners faceset k) ->
  exists f, find faceset h = Some f /\ faceHashCode f = h /\ In f faceset.
Proof.
  intro H. apply find_known. eapply owners_In_faceset; eassumption.
Qed.

Lemma length_2 {A : Type} (l : list A) :
  List.length l = 2%nat -> exists a b, l = [a; b].
Proof.
  destruct l as [|a [|b [|c l]]]; try discriminate. intros _. now exists a, b.
Qed.

Lemma targetEdges_filter (faceset : list Face) (shared acc : list Z) :
  (forall k, In k shared -> List.length (owners faceset k) = 2%nat) ->
  targetEdges faceset (buildLut faceset) shared acc =
  Ok (acc ++ filter (sameNormals faceset (buildLut faceset)) shared).
Proof.
  revert acc; induction shared as [|k shared IH]; intros acc H; simpl.
  - now rewrite app_nil_r.
  - destruct (length_2 _ (H k (or_introl eq_refl))) as (h0 & h1 & Ho).
    unfold sameNormals at 1. rewrite buildLut_get, Ho. simpl.
    destruct (find_owner faceset k h0) as (f0 & E0 & _); [rewrite Ho; simpl; tauto|].
    destruct (find_owner faceset k h1) as (f1 & E1 & _); [rewrite Ho; simpl; tauto|].
    unfold findFace. rewrite E0, E1. simpl.
    rewrite IH by (intros; apply H; now right).
    destruct (Vector_eqb _ _); [rewrite <- app_assoc|]; reflexivity.
Qed.

Lemma sameNormals_target (faceset : list Face) (k : Z) :
  List.length (owners faceset k) = 2%nat ->
  sameNormals faceset (buildLut faceset) k = true <-> isTargetEdge faceset k.
Proof.
  intro Hlen. destruct (length_2 _ Hlen) as (h0 & h1 & Ho).
  unfold sameNormals, isTargetEdge. rewrite buildLut_get, Ho.
  split.
  - destruct (find faceset h0) as [f0|] eqn:E0; [|discriminate].
    destruct (find faceset h1) as [f1|] eqn:E1; [|discriminate].
    intro H. apply Vector_eqb_eq in H. now exists h0, h1, f0, f1.
  - intros (h0' & h1' & f0 & f1 & E & E0 & E1 & Hn).
    injection E as <- <-. rewrite E0, E1. now apply Vector_eqb_eq.
Qed.

(** The target edges of a face set. *)
Lemma targetEdges_known (faceset : list Face) :
  exists targethedges,
    targetEdges faceset (buildLut faceset) (sharedEdges (buildLut faceset)) [] =
      Ok targethedges
    /\ forall k, In k targethedges <-> isTargetEdge faceset k.
Proof.
  eexists. split.
  - apply targetEdges_filter. intros k. apply sharedEdges_In.
  - intro k. simpl. rewrite filter_In, sharedEdges_In. split.
    + intros (Hlen & H). now apply sameNormals_target.
    + intro H. assert (Hlen : List.length (owners faceset k) = 2%nat).
      { destruct H as (h0 & h1 & _ & _ & -> & _). reflexivity. }
      split; [assumption|]. now apply sameNormals_target.
Qed.

(** C9.  An edge with two owners is a target edge of [cleanFaces] exactly
    when the normals of its two owning faces at (0.5, 0.5) are equal,
    component by component; an edge whose owner list has another length
    is no target edge. *)
Theorem targetEdges_same_normals (faceset : list Face) :
  exists targethedges,
    targetEdges faceset (buildLut faceset) (sharedEdges (buildLut faceset)) [] =
      Ok targethedges
    /\ (forall k h0 h1,
        owners faceset k = [h0; h1] ->
        exists f0 f1,
          find faceset h0 = Some f0 /\ find faceset h1 = Some f1
          /\ (In k targethedges <->
              Vector_eq (normalAt f0 half half) (normalAt f1 half half)))
    /\ (forall k, List.length (owners faceset k) <> 2%nat -> ~ In k targethedges).
Proof.
  destruct (targetEdges_known faceset) as (targethedges & Hrun & Hspec).
  exists targethedges. split; [exact Hrun|]. split.
  - intros k h0 h1 Ho.
    destruct (find_owner faceset k h0) as (f0 & E0 & _); [rewrite Ho; simpl; tauto|].
    destruct (find_owner faceset k h1) as (f1 & E1 & _); [rewrite Ho; simpl; tauto|].
    exists f0, f1. split; [exact E0|]. split; [exact E1|].
    rewrite Hspec. unfold isTargetEdge. split.
    + intros (h0' & h1' & f0' & f1' & E & E0' & E1' & Hn).
      rewrite Ho in E. injection E as <- <-. congruence.
    + intro Hn. now exists h0, h1, f0, f1.
  - intros k Hlen Hin. apply Hspec in Hin.
    destruct Hin as (h0 & h1 & _ & _ & Ho & _). rewrite Ho in Hlen. now apply Hlen.
Qed.

Lemma targetEdges_same_normals_witness :
  exists targethedges,
    targetEdges [Flat.squareA; Flat.squareB; Flat.squareC]
      (buildLut [Flat.squareA; Flat.squareB; Flat.squareC])
      (sharedEdges (buildLut [Flat.squareA; Flat.squareB; Flat.squareC])) [] =
      Ok targethedges
    /\ In 2 targethedges /\ ~ In 3 targethedges /\ ~ In 1 targethedges.
Proof.
  destruct (targetEdges_same_normals [Flat.squareA; Flat.squareB; Flat.squareC])
    as (targethedges & Hrun & Htwo & Hother).
  exists targethedges. split; [exact Hrun|]. split; [|split].
  - destruct (Htwo 2 10 20 eq_refl) as (f0 & f1 & E0 & E1 & Hiff).
    injection E0 as <-. injection E1 as <-.
    apply Hiff. vm_compute. repeat split; reflexivity.
  - destruct (Htwo 3 10 30 eq_refl) as (f0 & f1 & E0 & E1 & Hiff).
    injection E0 as <-. injection E1 as <-.
    intro H. apply Hiff in H. vm_compute in H. destruct H as (_ & H & _).
    discriminate H.
  - apply Hother. vm_compute. discriminate.
Defined.

(** ** cleanFaces: the target faces *)

Lemma addFace_In (hfaces : list Z) (f h : Z) :
  In h (addFace hfaces f) <-> In h hfaces \/ h = f.
Proof.
  unfold addFace. destruct (Z_in f hfaces) eqn:E; simpl.
  - apply Z_in_In in E. split; [tauto|]. intros [H| ->]; assumption.
  - rewrite in_app_iff. simpl. intuition.
Qed.

Lemma addFace_NoDup (hfaces : list Z) (f : Z) :
  NoDup hfaces -> NoDup (addFace hfaces f).
Proof.
  intro Hnd. unfold addFace. destruct (Z_in f hfaces) eqn:E; simpl; [assumption|].
  apply Z_in_not_In in E.
  apply NoDup_app; [assumption | repeat constructor; intros [] |].
  intros x Hx [<-|[]]. contradiction.
Qed.

Lemma addFaces_In (faces hfaces : list Z) (h : Z) :
  In h (fold_left addFace faces hfaces) <-> In h hfaces \/ In h faces.
Proof.
  revert hfaces; induction faces as [|f faces IH]; intro hfaces; simpl; [tauto|].
  rewrite IH, addFace_In. intuition.
Qed.

Lemma addFaces_NoDup (faces hfaces : list Z) :
  NoDup hfaces -> NoDup (fold_left addFace faces hfaces).
Proof.
  revert hfaces; induction faces as [|f faces IH]; intros hfaces Hnd; simpl;
    [assumption|].
  apply IH. now apply addFace_NoDup.
Qed.

Lemma targetFaces_known (faceset : list Face) (targethedges hfaces : list Z) :
  (forall k, In k targethedges -> owners faceset k <> []) ->
  exists hfaces',
    targetFaces (buildLut faceset) targethedges hfaces = Ok hfaces'
    /\ (NoDup hfaces -> NoDup hfaces')
    /\ (forall h, In h hfaces' <->
                  In h hfaces \/ exists k, In k targethedges /\ In h (owners faceset k)).
Proof.
  revert hfaces; induction targethedges as [|k ks IH]; intros hfaces Hown; simpl.
  - exists hfaces. split; [reflexivity|]. split; [tauto|].
    intro h. split; [tauto|]. intros [H|(k & [] & _)]. exact H.
  - rewrite buildLut_get.
    destruct (owners faceset k) as [|o os] eqn:Ho;
      [exfalso; now apply (Hown k (or_introl eq_refl))|].
    simpl.
    destruct (IH (fold_left addFace os (addFace hfaces o)))
      as (hfaces' & Hrun & Hnd & Hin); [intros; apply Hown; now right|].
    exists hfaces'. split; [exact Hrun|]. split.
    + intro H. apply Hnd. apply addFaces_NoDup. now apply addFace_NoDup.
    + intro h. rewrite Hin, addFaces_In, addFace_In. split.
      * intros [[[H| ->]|H]|(k' & Hk' & H)].
        -- now left.
        -- right. exists k. rewrite Ho. simpl. tauto.
        -- right. exists k. rewrite Ho. simpl. tauto.
        -- right. exists k'. tauto.
      * intros [H|(k' & [<-|Hk'] & H)].
        -- tauto.
        -- rewrite Ho in H. destruct H as [<-|H]; tauto.
        -- right. now exists k'.
Qed.

(** The target faces of a face set: the owners of its target edges, each
    once, all of them faces of the set. *)
Lemma targetFacesOf_known (faceset : list Face) :
  exists hfaces0,
    targetFacesOf faceset = Ok hfaces0
    /\ NoDup hfaces0
    /\ (forall h, In h hfaces0 <->
                  exists k, isTargetEdge faceset k /\ In h (owners faceset k)).
Proof.
  unfold targetFacesOf.
  destruct (targetEdges_known faceset) as (targethedges & Hrun & Hspec).
  rewrite Hrun. simpl.
  destruct (targetFaces_known faceset targethedges []) as (hfaces0 & Hrun' & Hnd & Hin).
  - intros k Hk. apply Hspec in Hk. destruct Hk as (h0 & h1 & _ & _ & -> & _).
    discriminate.
  - exists hfaces0. split; [exact Hrun'|]. split; [apply Hnd; constructor|].
    intro h. rewrite Hin. split.
    + intros [[]|(k & Hk & H)]. exists k. split; [now apply Hspec | exact H].
    + intros (k & Hk & H). right. exists k. split; [now apply Hspec | exact H].
Qed.

Lemma targetFacesOf_findable (faceset : list Face) (hfaces0 : list Z) (h : Z) :
  targetFacesOf faceset = Ok hfaces0 -> In h hfaces0 ->
  exists f, find faceset h = Some f.
Proof.
  intros Hrun Hin.
  destruct (targetFacesOf_known faceset) as (hfaces0' & Hrun' & _ & Hspec).
  rewrite Hrun in Hrun'. injection Hrun' as <-.
  apply Hspec in Hin. destruct Hin as (k & _ & Ho).
  destruct (find_owner faceset k h Ho) as (f & Hf & _). now exists f.
Qed.

Lemma no_target_no_faces (faceset : list Face) :
  (forall k, ~ isTargetEdge faceset k) -> targetFacesOf faceset = Ok [].
Proof.
  intro Hno. destruct (targetFacesOf_known faceset) as (hfaces0 & Hrun & _ & Hspec).
  rewrite Hrun. f_equal. destruct hfaces0 as [|h rest]; [reflexivity|].
  exfalso. destruct (proj1 (Hspec h) (or_introl eq_refl)) as (k & Hk & _).
  now apply (Hno k).
Qed.

Lemma cleanFaces_no_faces {K : Kernel} (fuel : nat) (shape : Shape) :
  targetFacesOf (Faces shape) = Ok [] ->
  cleanFaces fuel shape = Some (Raise IndexError).
Proof.
  intro H. unfold cleanFaces. rewrite H. reflexivity.
Qed.

Lemma single_face_owners (f : Face) (k : Z) :
  NoDup (map edgeHashCode (faceEdges f)) -> (List.length (owners [f] k) <= 1)%nat.
Proof.
  unfold owners, ownerships. simpl. rewrite app_nil_r.
  induction (faceEdges f) as [|e es IH]; simpl; intro Hnd; [lia|].
  inversion Hnd as [|? ? Hnot Hnd']; subst.
  destruct (edgeHashCode e =? k) eqn:E; simpl; [|now apply IH].
  apply Z.eqb_eq in E. subst k.
  assert (Hnone : filter (fun p : Z * Z => fst p =? edgeHashCode e)
                    (map (fun e0 => (edgeHashCode e0, faceHashCode f)) es) = []).
  { clear IH Hnd Hnd'. induction es as [|e' es IH]; simpl; [reflexivity|].
    destruct (edgeHashCode e' =? edgeHashCode e) eqn:E.
    - apply Z.eqb_eq in E. exfalso. apply Hnot. simpl. now left.
    - apply IH. intro H. apply Hnot. simpl. now right. }
  rewrite Hnone. simpl. lia.
Qed.

(** C2.  On a shape without target edge, where no edge has two owners with
    equal normals at (0.5, 0.5), the list of target faces is empty and
    [cleanFaces] raises [IndexError] on [hfaces.pop(0)]; a shape of a
    single face whose edge list names each edge once is such a shape. *)
Theorem cleanFaces_no_target_raises {K : Kernel} (fuel : nat) (shape : Shape) :
  ((forall k, ~ isTargetEdge (Faces shape) k) ->
   targetFacesOf (Faces shape) = Ok []
   /\ cleanFaces fuel shape = Some (Raise IndexError))
  /\ (forall f, Faces shape = [f] -> NoDup (map edgeHashCode (faceEdges f)) ->
      cleanFaces fuel shape = Some (Raise IndexError)).
Proof.
  split.
  - intro Hno. pose proof (no_target_no_faces _ Hno) as H.
    split; [exact H | now apply cleanFaces_no_faces].
  - intros f Hf Hnd. apply cleanFaces_no_faces. apply no_target_no_faces.
    intros k (h0 & h1 & _ & _ & Ho & _). rewrite Hf in Ho.
    pose proof (single_face_owners f k Hnd) as Hlen. rewrite Ho in Hlen.
    simpl in Hlen. lia.
Qed.

Lemma cleanFaces_no_target_raises_witness :
  @cleanFaces Flat.kernel 0 (Flat.compound [Flat.squareA; Flat.squareC]) =
    Some (Raise IndexError)
  /\ @cleanFaces Flat.kernel 0 Flat.mergedShell = Some (Raise IndexError).
Proof.
  split.
  - apply (proj1 (@cleanFaces_no_target_raises Flat.kernel 0
                    (Flat.compound [Flat.squareA; Flat.squareC]))).
    destruct (targetEdges_known [Flat.squareA; Flat.squareC]) as (t & Hrun & Hspec).
    vm_compute in Hrun. injection Hrun as <-.
    intros k Hk. now apply Hspec in Hk.
  - apply (proj2 (@cleanFaces_no_target_raises Flat.kernel 0 Flat.mergedShell)
             Flat.merged eq_refl).
    simpl. repeat constructor; simpl; intuition discriminate.
Defined.

(** ** cleanFaces: sorting the target faces into islands *)

Lemma pop_split (i : nat) (l : list Z) (x : Z) :
  nth_error l i = Some x ->
  exists l1 l2, l = l1 ++ x :: l2 /\ pop i l = Ok (x, l1 ++ l2).
Proof.
  intro H. unfold pop. rewrite H. cbn [of_option result_bind].
  apply nth_error_split in H. destruct H as (l1 & l2 & -> & <-).
  exists l1, l2. split; [reflexivity|]. do 2 f_equal.
  rewrite firstn_app, Nat.sub_diag, firstn_all. cbn [firstn]. rewrite app_nil_r.
  f_equal.
  rewrite skipn_app, skipn_all2 by lia.
  replace (S (List.length l1) - List.length l1)%nat with 1%nat by lia.
  reflexivity.
Qed.

Lemma appendAt_last (done : list (list Z)) (isle : list Z) (x : Z) (rest : list (list Z)) :
  appendAt (List.length done) x (done ++ isle :: rest) =
  Ok (done ++ (isle ++ [x]) :: rest).
Proof.
  induction done as [|d done IH]; simpl; [reflexivity|].
  rewrite IH. reflexivity.
Qed.

Lemma findNeighbourFrom_total (faceset : list Face) (eset hfacelist : list Z) (i : nat) :
  (forall h, In h hfacelist -> exists f, find faceset h = Some f) ->
  findNeighbourFrom faceset eset hfacelist i = Ok None
  \/ exists j x, findNeighbourFrom faceset eset hfacelist i = Ok (Some (i + j)%nat)
                 /\ nth_error hfacelist j = Some x.
Proof.
  revert i; induction hfacelist as [|h rest IH]; intros i Hfind; simpl.
  - now left.
  - destruct (Hfind h (or_introl eq_refl)) as (f & Hf).
    unfold findFace. rewrite Hf. simpl.
    destruct (existsb _ (faceEdges f)).
    + right. exists 0%nat, h. rewrite Nat.add_0_r. now split.
    + destruct (IH (S i)) as [H|(j & x & H & Hx)]; [intros; apply Hfind; now right | |].
      * now left.
      * right. exists (S j), x. rewrite Nat.add_succ_r. now split.
Qed.

Lemma findNeighbour_total (faceset : list Face) (hface : Z) (hfacelist : list Z) :
  (exists f, find faceset hface = Some f) ->
  (forall h, In h hfacelist -> exists f, find faceset h = Some f) ->
  findNeighbour faceset hface hfacelist = Ok None
  \/ exists j x, findNeighbour faceset hface hfacelist = Ok (Some j)
                 /\ nth_error hfacelist j = Some x.
Proof.
  intros (f & Hf) Hfind. unfold findNeighbour, findFace. rewrite Hf. simpl.
  destruct (findNeighbourFrom_total faceset (map edgeHashCode (faceEdges f))
              hfacelist 0 Hfind) as [H|(j & x & H & Hx)].
  - now left.
  - right. now exists j, x.
Qed.

Lemma nth_last {A : Type} (l : list A) (x d : A) : nth (List.length l) (l ++ [x]) d = x.
Proof.
  rewrite app_nth2, Nat.sub_diag by lia. reflexivity.
Qed.

Lemma nth_error_last {A : Type} (l : list A) (x : A) :
  nth_error (l ++ [x]) (List.length l) = Some x.
Proof.
  rewrite nth_error_app2, Nat.sub_diag by lia. reflexivity.
Qed.

Section SortingFacts.
Variables (faceset : list Face) (hfaces0 : list Z).
Hypothesis findable : forall h, In h hfaces0 -> exists f, find faceset h = Some f.

(** One iteration of the loop: it raises nothing, keeps [sorting] and
    leaves fewer steps. *)
Lemma sortStep_progress (st : Sorting) :
  sorting hfaces0 st -> hfaces st <> [] ->
  exists st',
    sortStep faceset st = Ok st'
    /\ sorting hfaces0 st' /\ (stepsLeft st' < stepsLeft st)%nat.
Proof.
  intros ((done & isle & Hisl & Hci & Hcf) & Hne & Hperm) Hhf.
  destruct st as [isl ci cf fd hf]. cbn [islands currentisle currentface found hfaces] in *.
  subst isl ci. unfold sortStep, stepsLeft.
  cbn [islands currentisle currentface found hfaces].
  rewrite nth_error_last, nth_last. cbn [of_option result_bind].
  destruct fd; cbn [negb].
  - destruct (nth_error isle cf) as [hface|] eqn:Ehface;
      [|apply nth_error_None in Ehface; lia].
    cbn [of_option result_bind].
    assert (Hin : In hface hfaces0).
    { apply (Permutation_in _ Hperm). apply in_or_app. left.
      rewrite concat_app. apply in_or_app. right. simpl. rewrite app_nil_r.
      eapply nth_error_In; eassumption. }
    assert (Hrest : forall h, In h hf -> exists f, find faceset h = Some f).
    { intros h Hh. apply findable. apply (Permutation_in _ Hperm).
      apply in_or_app. now right. }
    destruct (findNeighbour_total faceset hface hf (findable _ Hin) Hrest)
      as [Hnone | (j & x & Hsome & Hx)].
    + rewrite Hnone. cbn [result_bind].
      eexists. split; [reflexivity|].
      unfold sorting, stepsLeft.
      cbn [islands currentisle currentface found hfaces]. split.
      * split; [now exists done, isle|]. now split.
      * rewrite nth_last. lia.
    + rewrite Hsome. cbn [result_bind].
      destruct (pop_split j hf x Hx) as (l1 & l2 & Ehf & Hpop).
      rewrite Hpop. cbn [result_bind fst snd].
      rewrite appendAt_last. cbn [result_bind].
      eexists. split; [reflexivity|].
      unfold sorting, stepsLeft.
      cbn [islands currentisle currentface found hfaces]. split.
      * split; [|split].
        -- exists done, (isle ++ [x]). split; [reflexivity|]. split; [reflexivity|].
           rewrite length_app. simpl. lia.
        -- apply Forall_app in Hne. destruct Hne as (Hdone & _).
           apply Forall_app. split; [assumption|].
           constructor; [|constructor]. destruct isle; discriminate.
        -- etransitivity; [|exact Hperm]. subst hf.
           rewrite (concat_app done [isle]), (concat_app done [isle ++ [x]]).
           simpl. rewrite !app_nil_r, <- !app_assoc.
           do 2 apply Permutation_app_head. simpl. apply Permutation_middle.
      * rewrite nth_last. subst hf. rewrite !length_app. simpl. lia.
  - destruct (cf + 1 <? List.length isle)%nat eqn:E.
    + apply Nat.ltb_lt in E.
      eexists. split; [reflexivity|].
      unfold sorting, stepsLeft.
      cbn [islands currentisle currentface found hfaces]. split.
      * split; [|now split]. exists done, isle. split; [reflexivity|]. split; [reflexivity|]. lia.
      * rewrite nth_last. lia.
    + destruct hf as [|h rest]; [contradiction|].
      unfold pop. cbn [nth_error of_option result_bind firstn skipn app fst snd].
      eexists. split; [reflexivity|].
      unfold sorting, stepsLeft.
      cbn [islands currentisle currentface found hfaces]. split.
      * split; [|split].
        -- exists (done ++ [isle]), [h]. split; [reflexivity|].
           split; [rewrite length_app; simpl; lia | simpl; lia].
        -- apply Forall_app. split; [assumption|].
           constructor; [discriminate | constructor].
        -- etransitivity; [|exact Hperm].
           rewrite (concat_app (done ++ [isle]) [[h]]).
           simpl. rewrite <- !app_assoc. reflexivity.
      * replace (List.length done + 1)%nat with (List.length (done ++ [isle]))
          by (rewrite length_app; reflexivity).
        rewrite nth_last. simpl. lia.
Qed.

(** The loop ends within [stepsLeft] iterations, and then the islands
    hold the target faces. *)
Lemma sortLoop_done (fuel : nat) (st : Sorting) :
  sorting hfaces0 st -> (stepsLeft st <= fuel)%nat ->
  exists isles,
    sortLoop faceset fuel st = Some (Ok isles)
    /\ Forall (fun isle => isle <> []) isles
    /\ Permutation (concat isles) hfaces0.
Proof.
  revert st; induction fuel as [|fuel IH]; intros st Hst Hfuel.
  - destruct (hfaces st) as [|h rest] eqn:Ehf.
    + exists (islands st). simpl. rewrite Ehf. split; [reflexivity|].
      destruct Hst as (_ & Hne & Hperm). split; [assumption|].
      now rewrite Ehf, app_nil_r in Hperm.
    + unfold stepsLeft in Hfuel. rewrite Ehf in Hfuel. simpl in Hfuel. lia.
  - destruct (hfaces st) as [|h rest] eqn:Ehf.
    + exists (islands st). simpl. rewrite Ehf. split; [reflexivity|].
      destruct Hst as (_ & Hne & Hperm). split; [assumption|].
      now rewrite Ehf, app_nil_r in Hperm.
    + destruct (sortStep_progress st Hst) as (st' & Hstep & Hst' & Hless);
        [rewrite Ehf; discriminate|].
      simpl. rewrite Ehf, Hstep. apply IH; [assumption | lia].
Qed.
End SortingFacts.

(** More fuel does not change what the loop returns. *)
Lemma sortLoop_more_fuel (faceset : list Face) (fuel fuel' : nat) (st : Sorting)
    (r : result (list (list Z))) :
  sortLoop faceset fuel st = Some r -> (fuel <= fuel')%nat ->
  sortLoop faceset fuel' st = Some r.
Proof.
  revert fuel' st; induction fuel as [|fuel IH]; intros fuel' st Hrun Hle.
  - destruct fuel'; simpl in *; destruct (hfaces st); congruence.
  - destruct fuel' as [|fuel']; [lia|]. simpl in *.
    destruct (hfaces st); [assumption|].
    destruct (sortStep faceset st) as [st'|e]; [|assumption].
    apply IH; [assumption | lia].
Qed.

Lemma NoDup_concat_one_island (isles : list (list Z)) (i j : nat) (a b : list Z) (h : Z) :
  NoDup (concat isles) ->
  nth_error isles i = Some a -> nth_error isles j = Some b ->
  In h a -> In h b -> i = j.
Proof.
  revert i j; induction isles as [|isle isles IH]; intros i j Hnd Hi Hj Ha Hb.
  - destruct i; discriminate.
  - simpl in Hnd.
    assert (Hsep : forall x, In x isle -> ~ In x (concat isles)).
    { clear -Hnd. induction isle as [|y isle IH]; [contradiction|].
      simpl in Hnd. inversion Hnd as [|? ? Hnot Hnd']; subst.
      intros x [<-|Hx].
      - intro H. apply Hnot. apply in_or_app. now right.
      - now apply IH. }
    assert (Hin : forall n c, nth_error isles n = Some c -> In h c ->
                              In h (concat isles)).
    { intros n c Hn Hc. apply in_concat. exists c. split; [|assumption].
      eapply nth_error_In; eassumption. }
    destruct i as [|i], j as [|j]; simpl in Hi, Hj.
    + reflexivity.
    + injection Hi as <-. exfalso. apply (Hsep h Ha). eapply Hin; eassumption.
    + injection Hj as <-. exfalso. apply (Hsep h Hb). eapply Hin; eassumption.
    + f_equal. apply IH; try assumption. eapply NoDup_app_remove_l; eassumption.
Qed.

(** C10.  On a non-empty list of target faces the loop that sorts them
    into islands ends, within three iterations for each face, raising
    nothing, and the islands are a partition of the target faces: every
    target face is in an island, the islands hold nothing else, no face is
    twice in them, and no face is in two islands. *)
Theorem sortIslands_partition (faceset : list Face) (hfaces0 : list Z) :
  targetFacesOf faceset = Ok hfaces0 -> hfaces0 <> [] ->
  exists isles,
    (forall fuel, (3 * List.length hfaces0 <= fuel)%nat ->
                  sortIslands faceset fuel hfaces0 = Some (Ok isles))
    /\ (forall h, In h hfaces0 <-> exists isle, In isle isles /\ In h isle)
    /\ NoDup (concat isles)
    /\ (forall i j a b h,
        nth_error isles i = Some a -> nth_error isles j = Some b ->
        In h a -> In h b -> i = j)
    /\ Forall (fun isle => isle <> []) isles.
Proof.
  intros Hrun Hne.
  assert (Hfind : forall h, In h hfaces0 -> exists f, find faceset h = Some f)
    by (intros h Hh; eapply targetFacesOf_findable; eassumption).
  assert (Hnd : NoDup hfaces0).
  { destruct (targetFacesOf_known faceset) as (l & Hrun' & Hnd & _).
    rewrite Hrun in Hrun'. now injection Hrun' as <-. }
  destruct hfaces0 as [|h0 rest]; [contradiction|].
  set (st0 := {| islands := [[h0]]; currentisle := 0%nat; currentface := 0%nat;
                 found := true; hfaces := rest |}).
  assert (Hst0 : sorting (h0 :: rest) st0).
  { split; [|split].
    - exists [], [h0]. simpl. repeat split; lia.
    - constructor; [discriminate | constructor].
    - reflexivity. }
  assert (Hsteps : stepsLeft st0 = (3 * List.length (h0 :: rest))%nat)
    by (unfold stepsLeft; simpl; lia).
  destruct (sortLoop_done faceset (h0 :: rest) Hfind (stepsLeft st0) st0 Hst0 (le_n _))
    as (isles & Hloop & Hnonempty & Hperm).
  assert (Hnd' : NoDup (concat isles))
    by apply (Permutation_NoDup (Permutation_sym Hperm) Hnd).
  exists isles. split; [|split; [|split; [|split]]].
  - intros fuel Hfuel.
    unfold sortIslands, pop. cbn [nth_error of_option result_bind firstn skipn app fst snd].
    fold st0. apply (sortLoop_more_fuel _ _ _ _ _ Hloop). lia.
  - intro h. rewrite <- in_concat. split; apply Permutation_in;
      [symmetry|]; exact Hperm.
  - exact Hnd'.
  - intros i j a b h. now apply NoDup_concat_one_island.
  - exact Hnonempty.
Qed.

Lemma sortIslands_partition_witness :
  exists isles,
    sortIslands [Flat.squareA; Flat.squareB; Flat.squareC] 6 [10; 20] = Some (Ok isles)
    /\ (forall h, In h [10; 20] <-> exists isle, In isle isles /\ In h isle).
Proof.
  destruct (sortIslands_partition [Flat.squareA; Flat.squareB; Flat.squareC] [10; 20]
              eq_refl) as (isles & Hrun & Hin & _); [discriminate|].
  exists isles. split; [apply Hrun; simpl; lia | exact Hin].
Defined.

(** The faces of an island are all found, so that no [None] reaches
    [Part.makeCompound]. *)
Lemma islandFaces_found (faceset : list Face) (isle : list Z) :
  (forall h, In h isle -> exists f, find faceset h = Some f) ->
  exists fset,
    islandFaces faceset isle = Ok fset /\ map faceHashCode fset = isle.
Proof.
  induction isle as [|h isle IH]; intro Hfind; simpl.
  - now exists [].
  - destruct (find_known faceset h) as (f & Hf & Hh & _).
    { destruct (Hfind h (or_introl eq_refl)) as (f & Hf). exists f.
      unfold find in Hf. apply find_some in Hf. destruct Hf as (Hin & E).
      apply Z.eqb_eq in E. now split. }
    destruct IH as (fset & Hrun & Hmap); [intros; apply Hfind; now right|].
    rewrite Hf, Hrun. simpl. exists (f :: fset). split; [reflexivity|].
    simpl. now rewrite Hh, Hmap.
Qed.

(** ** cleanFaces, run again on its result *)

(** C1.  When a run of [cleanFaces] leaves no target edge in its result,
    as the merge of the islands is meant to, the next run on that result
    does not return it: its list of target faces is empty and
    [hfaces.pop(0)] raises [IndexError]. *)
Theorem cleanFaces_again_raises {K : Kernel} (fuel fuel' : nat) (shape cleaned : Shape) :
  cleanFaces fuel shape = Some (Ok cleaned) ->
  (forall k, ~ isTargetEdge (Faces cleaned) k) ->
  cleanFaces fuel' cleaned = Some (Raise IndexError).
Proof.
  intros _ Hno. apply cleanFaces_no_faces. now apply no_target_no_faces.
Qed.

Lemma cleanFaces_again_raises_witness :
  @cleanFaces Flat.kernel 6 Flat.twoSquares = Some (Ok Flat.mergedShell)
  /\ @cleanFaces Flat.kernel 6 Flat.mergedShell = Some (Raise IndexError).
Proof.
  split; [reflexivity|].
  apply (@cleanFaces_again_raises Flat.kernel 6 6 Flat.twoSquares Flat.mergedShell eq_refl).
  destruct (targetEdges_known (Faces Flat.mergedShell)) as (t & Hrun & Hspec).
  vm_compute in Hrun. injection Hrun as <-.
  intros k Hk. now apply Hspec in Hk.
Defined.

(** * Further properties *)

(** ** getBoundary: errors and empty results *)

Lemma boundaryFilter_raises {K : Kernel} (table : dict nat) (edges bound : list Edge)
    (e : exn) :
  boundaryFilter table edges bound = Raise e -> e = KeyError.
Proof.
  revert bound; induction edges as [|x edges IH]; intro bound; simpl; [discriminate|].
  destruct (dict_get (edgeHashCode x) table); simpl; [apply IH | congruence].
Qed.

Lemma getBoundary_raises_KeyError {K : Kernel} (g : FaceGroup) (e : exn) :
  getBoundary g = Raise e -> e = KeyError.
Proof.
  apply boundaryFilter_raises.
Qed.

(** X1.  [getBoundary] raises [KeyError] exactly when the edge list of the
    shape names an edge that none of its faces has, and it raises nothing
    else. *)
Theorem getBoundary_KeyError {K : Kernel} (g : FaceGroup) :
  (getBoundary g = Raise KeyError <->
   exists e, In e (Edges (groupShape g))
             /\ occurrences (Faces (groupShape g)) (edgeHashCode e) = O)
  /\ (forall e, getBoundary g = Raise e -> e = KeyError).
Proof.
  unfold getBoundary. split; [split|].
  - intro Hraise.
    destruct (existsb (fun e => (occurrences (Faces (groupShape g)) (edgeHashCode e) =? 0)%nat)
                (Edges (groupShape g))) eqn:E.
    + apply existsb_exists in E. destruct E as (e & He & E).
      apply Nat.eqb_eq in E. now exists e.
    + rewrite boundaryFilter_known in Hraise; [discriminate|].
      intros e He Hzero.
      assert (Ht : existsb (fun e => (occurrences (Faces (groupShape g)) (edgeHashCode e) =? 0)%nat)
                     (Edges (groupShape g)) = true).
      { apply existsb_exists. exists e. split; [assumption | now apply Nat.eqb_eq]. }
      congruence.
  - apply boundaryFilter_unknown.
  - intro e. apply boundaryFilter_raises.
Qed.

Lemma getBoundary_KeyError_witness :
  @getBoundary Flat.kernel (AShape Flat_stray) = Raise KeyError.
Proof.
  apply (proj1 (@getBoundary_KeyError Flat.kernel (AShape Flat_stray))).
  exists (Flat.edge 99). split; [simpl; tauto | reflexivity].
Defined.

Lemma filter_none {A : Type} (p : A -> bool) (l : list A) :
  (forall x, In x l -> p x = false) -> filter p l = [].
Proof.
  induction l as [|x l IH]; intro H; simpl; [reflexivity|].
  rewrite (H x (or_introl eq_refl)). apply IH. intros; apply H; now right.
Qed.

(** X2.  When every edge of the shape is shared, that is, occurs at least
    twice in the edge lists of the faces, as in a closed shell,
    [getBoundary] returns the empty list. *)
Theorem getBoundary_all_shared {K : Kernel} (g : FaceGroup) :
  (forall e, In e (Edges (groupShape g)) ->
             (2 <= occurrences (Faces (groupShape g)) (edgeHashCode e))%nat) ->
  getBoundary g = Ok [].
Proof.
  intro H. unfold getBoundary. rewrite boundaryFilter_known.
  - simpl. f_equal. apply filter_none. intros e He. unfold onceIn.
    apply Nat.eqb_neq. specialize (H e He). lia.
  - intros e He. specialize (H e He). lia.
Qed.

Lemma getBoundary_all_shared_witness :
  @getBoundary Flat.kernel
    (AShape {| Faces := [Flat.squareA; Flat.squareB]; Edges := [Flat.edge 2];
               isClosed := false |}) = Ok [].
Proof.
  apply (@getBoundary_all_shared Flat.kernel). simpl.
  intros e [<-|[]]. vm_compute. lia.
Defined.

(** ** concatenate: what it prints, returns and raises *)

(** X5.  [concatenate] never raises the kernel's construction error; it
    prints its message exactly when it returns its argument; it returns a
    wire only if the wire is open, and a face only if the kernel built it
    from a closed wire. *)
Theorem concatenate_reports {K : Kernel} (shape : FaceGroup) :
  snd (concatenate shape) <> Raise OCCError
  /\ (fst (concatenate shape) = ["DraftGeomUtils: Couldn't join faces into one"%string]
      <-> snd (concatenate shape) = Ok (TheShape shape))
  /\ (fst (concatenate shape) = []
      \/ fst (concatenate shape) = ["DraftGeomUtils: Couldn't join faces into one"%string])
  /\ (forall w, snd (concatenate shape) = Ok (TheWire w) -> wireIsClosed w = false)
  /\ (forall f, snd (concatenate shape) = Ok (TheFace f) ->
      exists w, wireIsClosed w = true /\ Part_Face w = Ok f).
Proof.
  unfold concatenate.
  destruct (getBoundary shape) as [edges|e] eqn:Hb.
  - destruct (Part_Wire (sortEdges edges)) as [w|e]; simpl.
    + destruct (Part_Face w) as [f|e] eqn:Hf; simpl.
      * destruct (wireIsClosed w) eqn:Hc; simpl;
          (split; [discriminate|]); (split; [split; discriminate|]);
          (split; [now left|]); split; intros x Hx; try discriminate.
        -- injection Hx as <-. now exists w.
        -- now injection Hx as <-.
      * destruct e; simpl;
          (split; [discriminate|]); (split; [split; try discriminate; reflexivity|]);
          (split; [tauto|]); split; intros x Hx; discriminate.
    + destruct e; simpl;
        (split; [discriminate|]); (split; [split; try discriminate; reflexivity|]);
        (split; [tauto|]); split; intros x Hx; discriminate.
  - simpl. apply getBoundary_raises_KeyError in Hb. subst e.
    split; [discriminate|]. split; [split; discriminate|].
    split; [now left|]. split; intros x Hx; discriminate.
Qed.

Lemma concatenate_reports_witness :
  exists w, wireIsClosed w = true /\ @Part_Face Flat.kernel w = Ok Flat.merged.
Proof.
  apply (proj2 (proj2 (proj2 (proj2
           (@concatenate_reports Flat.kernel (AShape Flat.twoSquares))))) Flat.merged).
  reflexivity.
Defined.

(** ** bind: what it prints, returns and raises *)

(** X6.  [bind] prints its message exactly when it returns [None], and
    prints nothing else; the kernel's construction error can only reach
    the caller when both wires are closed. *)
Theorem bind_reports {K : Kernel} (w1 w2 : option Wire) :
  (fst (bind w1 w2) = [unable_to_bind] <-> snd (bind w1 w2) = Ok None)
  /\ (fst (bind w1 w2) = [] \/ fst (bind w1 w2) = [unable_to_bind])
  /\ (snd (bind w1 w2) = Raise OCCError ->
      exists a b, w1 = Some a /\ w2 = Some b
                  /\ wireIsClosed a = true /\ wireIsClosed b = true).
Proof.
  destruct w1 as [a|], w2 as [b|]; simpl;
    try (split; [split; reflexivity|]; split; [now right | discriminate]).
  destruct (wireIsClosed a) eqn:Ha, (wireIsClosed b) eqn:Hb; simpl.
  - split; [|split; [now left|]].
    + destruct (Part_Face_wires (closedWires a b)); simpl; split; discriminate.
    + intros _. now exists a, b.
  - destruct (bridgeWires a b) as [f|e]; [|destruct e]; simpl;
      (split; [split; try discriminate; reflexivity|]); (split; [tauto | discriminate]).
  - destruct (bridgeWires a b) as [f|e]; [|destruct e]; simpl;
      (split; [split; try discriminate; reflexivity|]); (split; [tauto | discriminate]).
  - destruct (bridgeWires a b) as [f|e]; [|destruct e]; simpl;
      (split; [split; try discriminate; reflexivity|]); (split; [tauto | discriminate]).
Qed.

Lemma bind_reports_witness :
  exists a b,
    Some (Flat.closedWire 1 [Flat.edge 1]) = Some a
    /\ Some (Flat.closedWire 1 [Flat.edge 2]) = Some b
    /\ wireIsClosed a = true /\ wireIsClosed b = true.
Proof.
  apply (proj2 (proj2 (@bind_reports Flat.kernel
                         (Some (Flat.closedWire 1 [Flat.edge 1]))
                         (Some (Flat.closedWire 1 [Flat.edge 2]))))).
  reflexivity.
Defined.

(** ** isCoplanar: the tolerance *)

Lemma Qgtb_wider (d tolerance tolerance' : Q) :
  (tolerance <= tolerance')%Q -> Qgtb d tolerance = false -> Qgtb d tolerance' = false.
Proof.
  intros Hle H. apply Qgtb_le. apply Qgtb_le in H. eapply Qle_trans; eassumption.
Qed.

Lemma vertexesInPlane_wider {K : Kernel} (base : Vector) (face0 : Face)
    (tolerance tolerance' : Q) (vs : list Vertex) :
  (tolerance <= tolerance')%Q ->
  vertexesInPlane base face0 tolerance vs = Ok true ->
  vertexesInPlane base face0 tolerance' vs = Ok true.
Proof.
  intro Hle. induction vs as [|v vs IH]; simpl; [reflexivity|].
  destruct (hd_error (faceVertexes face0)) as [v0|]; simpl; [|discriminate].
  destruct (Qgtb _ tolerance) eqn:E; [discriminate|].
  rewrite (Qgtb_wider _ _ _ Hle E). exact IH.
Qed.

Lemma facesInPlane_wider {K : Kernel} (base : Vector) (face0 : Face)
    (tolerance tolerance' : Q) (faces : list Face) :
  (tolerance <= tolerance')%Q ->
  facesInPlane base face0 tolerance faces = Ok true ->
  facesInPlane base face0 tolerance' faces = Ok true.
Proof.
  intro Hle. induction faces as [|f faces IH]; simpl; [reflexivity|].
  destruct (vertexesInPlane base face0 tolerance (faceVertexes f)) as [[|]|e] eqn:E;
    simpl; try discriminate.
  rewrite (vertexesInPlane_wider _ _ _ _ _ Hle E). exact IH.
Qed.

(** X7.  Faces that [isCoplanar] accepts with a tolerance are accepted with
    every larger one. *)
Theorem isCoplanar_wider {K : Kernel} (faces : list Face) (tolerance tolerance' : Q) :
  (tolerance <= tolerance')%Q ->
  isCoplanar faces tolerance = Ok true ->
  isCoplanar faces tolerance' = Ok true.
Proof.
  intro Hle. unfold isCoplanar.
  destruct (List.length faces <? 2)%nat; [reflexivity|].
  destruct (nth_error faces 0) as [face0|]; simpl; [|discriminate].
  now apply facesInPlane_wider.
Qed.

Lemma isCoplanar_wider_witness :
  @isCoplanar Flat.kernel [Flat.squareA; Flat.squareB] 1 = Ok true.
Proof.
  apply (@isCoplanar_wider Flat.kernel [Flat.squareA; Flat.squareB] 0 1);
    [discriminate | reflexivity].
Defined.

(** ** removeSplitter: the edges of the wire, in order *)

Lemma singleEdges_cons (k : Z) (v : list Edge) (d : dict (list Edge)) :
  singleEdges ((k, v) :: d) =
  match v with [e0] => [e0] | _ => [] end ++ singleEdges d.
Proof.
  reflexivity.
Qed.

Lemma singleEdges_In (d : dict (list Edge)) (x : Edge) :
  In x (singleEdges d) <-> exists k, In (k, [x]) d.
Proof.
  induction d as [|[k v] d IH]; [simpl; split; [contradiction | now intros (k & [])]|].
  rewrite singleEdges_cons, in_app_iff, IH. split.
  - intros [H|(k' & H)].
    + destruct v as [|e0 [|e1 v]]; try contradiction. destruct H as [<-|[]].
      exists k. now left.
    + exists k'. now right.
  - intros (k' & [H|H]).
    + injection H as Hk Hv. subst k' v. left. now left.
    + right. now exists k'.
Qed.

Lemma singleEdges_other_key (d : dict (list Edge)) (h : Z) :
  (forall k v x, In (k, v) d -> In x v -> edgeHashCode x = k) ->
  ~ In h (dict_keys d) ->
  filter (fun x => negb (edgeHashCode x =? h)) (singleEdges d) = singleEdges d.
Proof.
  intros Hkey Hnot. apply filter_all. intros x Hx.
  apply singleEdges_In in Hx. destruct Hx as (k & Hin).
  rewrite (Hkey k [x] x Hin (or_introl eq_refl)).
  apply negb_true_iff, Z.eqb_neq. intros ->. apply Hnot.
  unfold dict_keys. change h with (fst (h, [x])). now apply in_map.
Qed.

Lemma singleEdges_new_key (d : dict (list Edge)) (h : Z) (e : Edge) :
  ~ In h (dict_keys d) -> singleEdges (dict_set h [e] d) = singleEdges d ++ [e].
Proof.
  unfold dict_keys. induction d as [|[k v] d IH]; intro Hnot; [reflexivity|].
  simpl in Hnot. simpl dict_set.
  destruct (k =? h) eqn:E; [apply Z.eqb_eq in E; tauto|].
  rewrite !singleEdges_cons, IH by tauto. now rewrite app_assoc.
Qed.

Lemma singleEdges_longer (d : dict (list Edge)) (h : Z) (v : list Edge) (e : Edge) :
  NoDup (dict_keys d) ->
  (forall k v x, In (k, v) d -> In x v -> edgeHashCode x = k) ->
  dict_get h d = Some v -> v <> [] ->
  singleEdges (dict_set h (v ++ [e]) d) =
  filter (fun x => negb (edgeHashCode x =? h)) (singleEdges d).
Proof.
  induction d as [|[k v0] d IH]; intros Hnd Hkey Hget Hv; [discriminate|].
  simpl in Hget. simpl dict_set. unfold dict_keys in Hnd. simpl in Hnd.
  inversion Hnd as [|? ? Hnot Hnd']; subst.
  destruct (k =? h) eqn:E.
  - apply Z.eqb_eq in E. subst k. injection Hget as ->.
    rewrite !singleEdges_cons, filter_app.
    rewrite singleEdges_other_key;
      [|intros k v0 x Hin; apply (Hkey k v0 x); now right | exact Hnot].
    f_equal.
    + destruct v as [|a [|b v]]; [contradiction| |]; simpl; [|reflexivity].
      rewrite (Hkey h [a] a (or_introl eq_refl) (or_introl eq_refl)), Z.eqb_refl.
      reflexivity.
  - rewrite !singleEdges_cons, filter_app, IH; try assumption;
      [|intros k' v' x Hin; apply (Hkey k' v' x); now right].
    f_equal. symmetry. apply filter_all. intros x Hx.
    assert (Hk : edgeHashCode x = k).
    { apply (Hkey k v0 x); [now left|].
      destruct v0 as [|a [|b v0]]; try contradiction. destruct Hx as [<-|[]]. now left. }
    rewrite Hk, E. reflexivity.
Qed.

Lemma dict_get_None_keys {V : Type} (k : Z) (d : dict V) :
  dict_get k d = None -> ~ In k (dict_keys d).
Proof.
  unfold dict_keys. induction d as [|[k0 v0] d IH]; simpl; [tauto|].
  destruct (k0 =? k) eqn:E; [discriminate|].
  apply Z.eqb_neq in E. intros H [H'|H']; [contradiction | now apply IH].
Qed.

Lemma filter_filter {A : Type} (p q : A -> bool) (l : list A) :
  filter p (filter q l) = filter (fun x => q x && p x) l.
Proof.
  induction l as [|x l IH]; simpl; [reflexivity|].
  destruct (q x); simpl; [destruct (p x); now rewrite IH | exact IH].
Qed.

(** The table of [removeSplitter] over a list of edges. *)
Lemma edgeLookup_get (es : list Edge) (k : Z) :
  dict_get k (fold_left (fill edgeHashCode (collect (fun x => x))) es []) =
  match filter (fun e => edgeHashCode e =? k) es with
  | [] => None
  | l => Some l
  end.
Proof.
  rewrite dict_get_fill, collect_entries, map_id. simpl.
  destruct (filter _ _); reflexivity.
Qed.

Lemma edgeLookup_keys (es : list Edge) (k : Z) (v : list Edge) (x : Edge) :
  In (k, v) (fold_left (fill edgeHashCode (collect (fun x => x))) es []) ->
  In x v -> edgeHashCode x = k.
Proof.
  intros Hin Hx. apply In_dict_get in Hin; [|apply fill_NoDup; constructor].
  rewrite edgeLookup_get in Hin.
  destruct (filter _ _) as [|a l] eqn:Ef; [discriminate|]. injection Hin as <-.
  rewrite <- Ef in Hx. apply filter_In in Hx. now apply Z.eqb_eq.
Qed.

Lemma singleEdges_in_order (es : list Edge) :
  singleEdges (fold_left (fill edgeHashCode (collect (fun x => x))) es []) =
  filter (fun x => (count_occ Z.eq_dec (map edgeHashCode es) (edgeHashCode x) =? 1)%nat) es.
Proof.
  induction es as [|e es IH] using rev_ind; [reflexivity|].
  rewrite fold_left_app. simpl fold_left.
  set (d := fold_left (fill edgeHashCode (collect (fun x => x))) es []) in *.
  assert (Hcount : forall k,
             count_occ Z.eq_dec (map edgeHashCode (es ++ [e])) k =
             (count_occ Z.eq_dec (map edgeHashCode es) k
              + if (edgeHashCode e =? k)%Z then 1 else 0)%nat).
  { intro k. rewrite map_app, count_occ_app. simpl.
    destruct (Z.eq_dec (edgeHashCode e) k) as [E|E].
    - apply Z.eqb_eq in E. now rewrite E.
    - apply Z.eqb_neq in E. now rewrite E. }
  rewrite filter_app. simpl filter. rewrite !Hcount, Z.eqb_refl.
  unfold fill. pose proof (edgeLookup_get es (edgeHashCode e)) as Hget. fold d in Hget.
  rewrite Hget, count_occ_filter.
  destruct (filter (fun e0 => edgeHashCode e0 =? edgeHashCode e) es) as [|a l] eqn:Ef.
  - cbv beta iota delta [collect]. rewrite singleEdges_new_key
      by (apply dict_get_None_keys; now rewrite Hget).
    simpl. rewrite IH. f_equal. apply filter_ext_in. intros x Hx.
    rewrite Hcount.
    destruct (edgeHashCode e =? edgeHashCode x) eqn:E; [|now rewrite Nat.add_0_r].
    exfalso. assert (Hin : In x (filter (fun e0 => edgeHashCode e0 =? edgeHashCode e) es))
      by (apply filter_In; split; [assumption | now rewrite Z.eqb_sym]).
    now rewrite Ef in Hin.
  - cbv beta iota delta [collect]. rewrite (singleEdges_longer d (edgeHashCode e) (a :: l) e);
      [|apply fill_NoDup; constructor
       |intros k v x; apply edgeLookup_keys
       |now rewrite Hget
       |discriminate].
    rewrite IH, filter_filter.
    replace (List.length (a :: l) + 1 =? 1)%nat with false
      by (symmetry; apply Nat.eqb_neq; simpl; lia).
    rewrite app_nil_r.
    apply filter_ext_in. intros x Hx. rewrite Hcount, (Z.eqb_sym (edgeHashCode e)).
    destruct (edgeHashCode x =? edgeHashCode e) eqn:E; simpl.
    + rewrite andb_false_r. symmetry. apply Nat.eqb_neq.
      assert (Hpos : (count_occ Z.eq_dec (map edgeHashCode es) (edgeHashCode x) > 0)%nat).
      { apply count_occ_In. now apply in_map. }
      lia.
    + now rewrite andb_true_r, Nat.add_0_r.
Qed.

(** X3.  The edges [removeSplitter] hands to [Part.Wire] are the edges of
    the faces whose hash code occurs once, in the order the faces list
    them. *)
Theorem singleEdges_ordered (faces : list Face) :
  singleEdges (splitterLookup faces) =
  filter (onceIn faces) (flat_map faceEdges faces).
Proof.
  rewrite splitterLookup_fill. apply singleEdges_in_order.
Qed.

(** ** getBoundary and removeSplitter keep the same edges *)

Lemma getBoundary_Ok {K : Kernel} (g : FaceGroup) (bound : list Edge) :
  getBoundary g = Ok bound ->
  (forall e, In e (Edges (groupShape g)) ->
             occurrences (Faces (groupShape g)) (edgeHashCode e) <> O)
  /\ bound = filter (onceIn (Faces (groupShape g))) (Edges (groupShape g)).
Proof.
  intro Hrun.
  assert (Hknown : forall e, In e (Edges (groupShape g)) ->
                             occurrences (Faces (groupShape g)) (edgeHashCode e) <> O).
  { intros e He Hzero. unfold getBoundary in Hrun.
    rewrite boundaryFilter_unknown in Hrun; [discriminate|]. now exists e. }
  split; [exact Hknown|].
  unfold getBoundary in Hrun. rewrite (boundaryFilter_known _ _ [] Hknown) in Hrun.
  now injection Hrun as <-.
Qed.

(** X4.  On a shape whose edge list has every edge of its faces, the two
    ways of finding the boundary agree: an edge is among those
    [getBoundary] returns exactly when it is among those [removeSplitter]
    builds its wire from. *)
Theorem boundary_edges_agree {K : Kernel} (shape : Shape) (bound : list Edge) :
  (forall e, In e (flat_map faceEdges (Faces shape)) ->
             In (edgeHashCode e) (map edgeHashCode (Edges shape))) ->
  getBoundary (AShape shape) = Ok bound ->
  forall h,
    In h (map edgeHashCode bound) <->
    In h (map edgeHashCode (singleEdges (splitterLookup (Faces shape)))).
Proof.
  intros Hall Hrun h.
  apply getBoundary_Ok in Hrun. simpl in Hrun. destruct Hrun as (_ & ->).
  rewrite !in_map_iff. split.
  - intros (e & <- & He). apply filter_In in He. destruct He as (_ & Honce).
    apply Nat.eqb_eq in Honce.
    assert (Hin : In (edgeHashCode e) (map edgeHashCode (flat_map faceEdges (Faces shape)))).
    { apply (count_occ_In Z.eq_dec). unfold occurrences in Honce. lia. }
    apply in_map_iff in Hin. destruct Hin as (e' & Hh & He').
    exists e'. split; [assumption|]. apply singleEdges_once.
    split; [assumption | now rewrite Hh].
  - intros (e & <- & He). apply singleEdges_once in He. destruct He as (He & Honce).
    specialize (Hall e He). apply in_map_iff in Hall. destruct Hall as (e' & Hh & He').
    exists e'. split; [assumption|]. apply filter_In. split; [assumption|].
    unfold onceIn. rewrite Hh. now apply Nat.eqb_eq.
Qed.

Lemma boundary_edges_agree_witness :
  In 3 (map edgeHashCode (singleEdges (splitterLookup (Faces Flat.twoSquares))))
  /\ ~ In 2 (map edgeHashCode (singleEdges (splitterLookup (Faces Flat.twoSquares)))).
Proof.
  assert (Hall : forall e, In e (flat_map faceEdges (Faces Flat.twoSquares)) ->
                           In (edgeHashCode e) (map edgeHashCode (Edges Flat.twoSquares))).
  { intros e He. simpl in He.
    repeat (destruct He as [<-|He]; [simpl; tauto|]). contradiction. }
  pose proof (@boundary_edges_agree Flat.kernel Flat.twoSquares
                (map Flat.edge [1; 3; 4; 5; 6; 7]) Hall eq_refl) as Hagree.
  split.
  - apply (Hagree 3). simpl. tauto.
  - intro H. apply (Hagree 2) in H. simpl in H. intuition discriminate.
Defined.

(** ** cleanFaces: the lookup table and the target faces *)

(** X8.  The lookup table of [cleanFaces] keeps each edge hash code once;
    under it are the hashcodes of the faces that list the edge, in the
    order of the faces and once for every listing, each of them the
    hashcode of a face of the set; an edge of no face has no entry. *)
Theorem buildLut_owners (faceset : list Face) :
  NoDup (dict_keys (buildLut faceset))
  /\ (forall k l, dict_get k (buildLut faceset) = Some l <->
                  l = owners faceset k /\ l <> [])
  /\ (forall k, dict_get k (buildLut faceset) = None <->
                ~ In k (map edgeHashCode (flat_map faceEdges faceset)))
  /\ (forall k l h, dict_get k (buildLut faceset) = Some l -> In h l ->
      exists f e, In f faceset /\ faceHashCode f = h
                  /\ In e (faceEdges f) /\ edgeHashCode e = k).
Proof.
  split; [apply buildLut_NoDup|]. split; [|split].
  - intros k l. rewrite buildLut_get.
    destruct (owners faceset k) as [|o os]; split.
    + discriminate.
    + intros (-> & H). now contradiction H.
    + intro H. injection H as <-. split; [reflexivity | discriminate].
    + intros (-> & _). reflexivity.
  - intro k. rewrite buildLut_get. unfold owners, ownerships.
    split.
    + intros Hnone Hin. apply in_map_iff in Hin. destruct Hin as (e & <- & He).
      apply in_flat_map in He. destruct He as (f & Hf & He).
      assert (Hown : In (faceHashCode f)
                (map snd (filter (fun p : Z * Z => fst p =? edgeHashCode e)
                   (flat_map (fun f0 => map (fun e0 => (edgeHashCode e0, faceHashCode f0))
                                            (faceEdges f0)) faceset)))).
      { apply in_map_iff. exists (edgeHashCode e, faceHashCode f). split; [reflexivity|].
        apply filter_In. split; [|apply Z.eqb_refl].
        apply in_flat_map. exists f. split; [assumption|].
        apply in_map_iff. now exists e. }
      destruct (map snd _); [contradiction | discriminate].
    + intro Hnot. destruct (map snd _) as [|h l] eqn:E; [reflexivity|]. exfalso.
      assert (Hin : In h (h :: l)) by now left. rewrite <- E in Hin.
      apply in_map_iff in Hin. destruct Hin as ([k' h'] & _ & Hin).
      apply filter_In in Hin. destruct Hin as (Hin & Hk). simpl in Hk.
      apply Z.eqb_eq in Hk. subst k'.
      apply in_flat_map in Hin. destruct Hin as (f & Hf & Hin).
      apply in_map_iff in Hin. destruct Hin as (e & He & Hin).
      injection He as Hk _. apply Hnot. apply in_map_iff. exists e.
      split; [assumption|]. apply in_flat_map. now exists f.
  - intros k l h Hget Hin. rewrite buildLut_get in Hget.
    destruct (owners faceset k) as [|o os] eqn:Ho; [discriminate|].
    injection Hget as <-. rewrite <- Ho in Hin. unfold owners, ownerships in Hin.
    apply in_map_iff in Hin. destruct Hin as ([k' h'] & Hh & Hin). simpl in Hh. subst h'.
    apply filter_In in Hin. destruct Hin as (Hin & Hk). simpl in Hk.
    apply Z.eqb_eq in Hk. subst k'.
    apply in_flat_map in Hin. destruct Hin as (f & Hf & Hin).
    apply in_map_iff in Hin. destruct Hin as (e & He & Hin).
    injection He as Hk Hh. now exists f, e.
Qed.

Lemma buildLut_owners_witness :
  exists f e, In f [Flat.squareA; Flat.squareB] /\ faceHashCode f = 20
              /\ In e (faceEdges f) /\ edgeHashCode e = 2.
Proof.
  apply (proj2 (proj2 (proj2 (buildLut_owners [Flat.squareA; Flat.squareB])))
           2 [10; 20] 20); [reflexivity | simpl; tauto].
Defined.

(** X9.  The pass of [cleanFaces] that gathers the target faces raises
    nothing.  Its list has no face twice, holds exactly the owners of the
    target edges, and [find] knows each of them. *)
Theorem targetFacesOf_owners (faceset : list Face) :
  exists hfaces0,
    targetFacesOf faceset = Ok hfaces0
    /\ NoDup hfaces0
    /\ (forall h, In h hfaces0 <->
                  exists k, isTargetEdge faceset k /\ In h (owners faceset k))
    /\ (forall h, In h hfaces0 ->
        exists f, find faceset h = Some f /\ faceHashCode f = h /\ In f faceset)
    /\ (List.length hfaces0 <= List.length faceset)%nat.
Proof.
  destruct (targetFacesOf_known faceset) as (hfaces0 & Hrun & Hnd & Hspec).
  exists hfaces0. split; [exact Hrun|]. split; [exact Hnd|]. split; [exact Hspec|].
  assert (Hfind : forall h, In h hfaces0 ->
            exists f, find faceset h = Some f /\ faceHashCode f = h /\ In f faceset).
  { intros h Hh. apply Hspec in Hh. destruct Hh as (k & _ & Ho).
    now apply (find_owner faceset k). }
  split; [exact Hfind|].
  rewrite <- (length_map faceHashCode faceset).
  apply NoDup_incl_length; [exact Hnd|].
  intros h Hh. destruct (Hfind h Hh) as (f & _ & <- & Hf). now apply in_map.
Qed.

Lemma targetFacesOf_owners_witness :
  exists f,
    find [Flat.squareA; Flat.squareB; Flat.squareC] 10 = Some f
    /\ faceHashCode f = 10 /\ In f [Flat.squareA; Flat.squareB; Flat.squareC].
Proof.
  destruct (targetFacesOf_owners [Flat.squareA; Flat.squareB; Flat.squareC])
    as (hfaces0 & Hrun & _ & _ & Hfind & _).
  vm_compute in Hrun. injection Hrun as <-.
  apply Hfind. simpl. tauto.
Defined.

(** ** cleanFaces: findNeighbour *)

Lemma findNeighbourFrom_first (faceset : list Face) (f : Face) (hface : Z)
    (hfacelist : list Z) (i : nat) :
  find faceset hface = Some f ->
  (forall h, In h hfacelist -> exists f', find faceset h = Some f') ->
  match findNeighbourFrom faceset (map edgeHashCode (faceEdges f)) hfacelist i with
  | Ok (Some n) =>
      exists j x,
        n = (i + j)%nat /\ nth_error hfacelist j = Some x
        /\ sharesEdge faceset hface x = true
        /\ forall j' y, (j' < j)%nat -> nth_error hfacelist j' = Some y ->
                        sharesEdge faceset hface y = false
  | Ok None => forall y, In y hfacelist -> sharesEdge faceset hface y = false
  | Raise _ => False
  end.
Proof.
  intro Hf. revert i; induction hfacelist as [|h rest IH]; intros i Hfind; simpl.
  - intros y [].
  - destruct (Hfind h (or_introl eq_refl)) as (f' & Hf').
    unfold findFace. rewrite Hf'. simpl.
    assert (Hshare : sharesEdge faceset hface h =
                     existsb (fun ee => Z_in (edgeHashCode ee) (map edgeHashCode (faceEdges f)))
                             (faceEdges f'))
      by (unfold sharesEdge; now rewrite Hf, Hf').
    destruct (existsb _ (faceEdges f')) eqn:E.
    + exists 0%nat, h. rewrite Nat.add_0_r. repeat split; try assumption.
      intros j' y Hlt. lia.
    + specialize (IH (S i) (fun y Hy => Hfind y (or_intror Hy))).
      destruct (findNeighbourFrom faceset _ rest (S i)) as [[n|]|e]; [| |exact IH].
      * destruct IH as (j & x & -> & Hx & Hsx & Hfirst).
        exists (S j), x. split; [lia|]. split; [assumption|]. split; [assumption|].
        intros [|j'] y Hlt Hy; simpl in Hy.
        -- now injection Hy as <-.
        -- apply (Hfirst j' y); [lia | assumption].
      * intros y [<-|Hy]; [assumption | now apply IH].
Qed.

(** X10.  When [find] knows the face and the faces of the list,
    [findNeighbour] raises nothing and returns the index of the first face
    of the list that has an edge of the given face, or [None] when no face
    of the list has one; when [find] does not know the face it raises
    [AttributeError]. *)
Theorem findNeighbour_first (faceset : list Face) (hface : Z) (hfacelist : list Z) :
  ((exists f, find faceset hface = Some f) ->
   (forall h, In h hfacelist -> exists f', find faceset h = Some f') ->
   match findNeighbour faceset hface hfacelist with
   | Ok (Some j) =>
       exists x,
         nth_error hfacelist j = Some x
         /\ sharesEdge faceset hface x = true
         /\ forall j' y, (j' < j)%nat -> nth_error hfacelist j' = Some y ->
                         sharesEdge faceset hface y = false
   | Ok None => forall y, In y hfacelist -> sharesEdge faceset hface y = false
   | Raise _ => False
   end)
  /\ (find faceset hface = None ->
      findNeighbour faceset hface hfacelist = Raise AttributeError).
Proof.
  split.
  - intros (f & Hf) Hfind. unfold findNeighbour, findFace. rewrite Hf. simpl.
    pose proof (findNeighbourFrom_first faceset f hface hfacelist 0 Hf Hfind) as H.
    destruct (findNeighbourFrom faceset _ hfacelist 0) as [[n|]|e]; try exact H.
    destruct H as (j & x & -> & H). now exists x.
  - intro Hnone. unfold findNeighbour, findFace. now rewrite Hnone.
Qed.

Lemma findNeighbour_first_witness :
  exists x,
    nth_error [30; 20] 1 = Some x
    /\ sharesEdge [Flat.squareA; Flat.squareB; Flat.squareC] 20 x = true
    /\ forall j' y, (j' < 1)%nat -> nth_error [30; 20] j' = Some y ->
                    sharesEdge [Flat.squareA; Flat.squareB; Flat.squareC] 20 y = false.
Proof.
  apply (proj1 (findNeighbour_first [Flat.squareA; Flat.squareB; Flat.squareC] 20 [30; 20])).
  - now exists Flat.squareB.
  - intros h [<-|[<-|[]]]; [now exists Flat.squareC | now exists Flat.squareB].
Defined.

(** ** cleanFaces: the islands are the groups of faces joined by edges *)

Lemma sharesEdge_sym (faceset : list Face) (h h' : Z) :
  sharesEdge faceset h h' = sharesEdge faceset h' h.
Proof.
  unfold sharesEdge.
  destruct (find faceset h) as [f|], (find faceset h') as [f'|]; try reflexivity.
  apply eq_true_iff_eq. rewrite !existsb_exists. split.
  - intros (e' & He' & H). apply Z_in_In, in_map_iff in H. destruct H as (e & Hh & He).
    exists e. split; [assumption|]. apply Z_in_In. rewrite Hh. now apply in_map.
  - intros (e & He & H). apply Z_in_In, in_map_iff in H. destruct H as (e' & Hh & He').
    exists e'. split; [assumption|]. apply Z_in_In. rewrite Hh. now apply in_map.
Qed.

Lemma separated_snoc (faceset : list Face) (isles : list (list Z)) (isle : list Z) :
  separated faceset (isles ++ [isle]) <->
  separated faceset isles
  /\ forall x y, In x (concat isles) -> In y isle -> sharesEdge faceset x y = false.
Proof.
  induction isles as [|a isles IH]; simpl.
  - split; [intros _; split; [exact I | intros x y []] | intros _; split; [|exact I]].
    intros x y _ [].
  - rewrite IH, concat_app. simpl. rewrite app_nil_r. split.
    + intros (Ha & Hsep & Hlast). split; [split; [|assumption]|].
      * intros x y Hx Hy. apply Ha; [assumption|]. apply in_or_app. now left.
      * intros x y Hx Hy. apply in_app_or in Hx. destruct Hx as [Hx|Hx].
        -- apply Ha; [assumption|]. apply in_or_app. now right.
        -- now apply Hlast.
    + intros ((Ha & Hsep) & Hlast). split; [|split; [assumption|]].
      * intros x y Hx Hy. apply in_app_or in Hy. destruct Hy as [Hy|Hy].
        -- now apply Ha.
        -- apply Hlast; [|assumption]. apply in_or_app. now left.
      * intros x y Hx Hy. apply Hlast; [|assumption]. apply in_or_app. now right.
Qed.

Lemma connected_one (faceset : list Face) (h : Z) : connected faceset [h].
Proof.
  intros [|p pre] x post E Hpre; [contradiction|].
  injection E as _ E. destruct pre; discriminate.
Qed.

Lemma connected_snoc (faceset : list Face) (isle : list Z) (y x : Z) :
  connected faceset isle -> In y isle -> sharesEdge faceset y x = true ->
  connected faceset (isle ++ [x]).
Proof.
  intros Hc Hy Hs pre x' post E Hpre.
  destruct post as [|z post] using rev_ind.
  - apply app_inj_tail in E. destruct E as (<- & <-). now exists y.
  - clear IHpost.
    rewrite app_comm_cons, app_assoc in E. apply app_inj_tail in E.
    destruct E as (E & _). now apply (Hc pre x' post).
Qed.

Lemma pop_In (i : nat) (l : list Z) (x : Z) (rest : list Z) :
  pop i l = Ok (x, rest) ->
  nth_error l i = Some x /\ forall y, In y rest -> In y l.
Proof.
  intro Hpop.
  assert (Hx : nth_error l i = Some x).
  { unfold pop in Hpop. destruct (nth_error l i); simpl in Hpop; [|discriminate].
    now injection Hpop as -> _. }
  split; [exact Hx|].
  destruct (pop_split i l x Hx) as (l1 & l2 & -> & Hpop').
  rewrite Hpop in Hpop'. injection Hpop' as ->.
  intros y Hy. apply in_app_or in Hy. apply in_or_app. simpl. tauto.
Qed.

Lemma findNeighbour_shares (faceset : list Face) (hface : Z) (hfacelist : list Z) :
  (exists f, find faceset hface = Some f) ->
  (forall h, In h hfacelist -> exists f', find faceset h = Some f') ->
  match findNeighbour faceset hface hfacelist with
  | Ok (Some j) =>
      exists x, nth_error hfacelist j = Some x /\ sharesEdge faceset hface x = true
  | Ok None => forall y, In y hfacelist -> sharesEdge faceset hface y = false
  | Raise _ => False
  end.
Proof.
  intros (f & Hf) Hfind. unfold findNeighbour, findFace. rewrite Hf. simpl.
  pose proof (findNeighbourFrom_first faceset f hface hfacelist 0 Hf Hfind) as H.
  destruct (findNeighbourFrom faceset _ hfacelist 0) as [[n|]|e]; try exact H.
  destruct H as (j & x & -> & Hx & Hs & _). now exists x.
Qed.

Section SearchedFacts.
Variables (faceset : list Face) (hfaces0 : list Z).
Hypothesis findable : forall h, In h hfaces0 -> exists f, find faceset h = Some f.

(** One iteration of the loop keeps [searched]. *)
Lemma sortStep_searched (st st' : Sorting) :
  sorting hfaces0 st -> searched faceset st ->
  sortStep faceset st = Ok st' -> searched faceset st'.
Proof.
  intros ((done & isle & Hisl & Hci & Hcf) & Hne & Hperm) Hsearch Hstep.
  destruct st as [isl ci cf fd hf].
  unfold searched in Hsearch.
  cbn [islands currentisle currentface found hfaces] in *.
  subst isl ci.
  destruct (Hsearch done isle eq_refl) as (Hconn & Hsep & Hdone & Hbefore & Hcur).
  clear Hsearch.
  unfold sortStep in Hstep. cbn [islands currentisle currentface found hfaces] in Hstep.
  rewrite nth_error_last in Hstep. cbn [of_option result_bind] in Hstep.
  destruct fd; cbn [negb] in Hstep.
  - destruct (nth_error isle cf) as [hface|] eqn:Ehface; [|discriminate].
    cbn [of_option result_bind] in Hstep.
    assert (Hin : In hface hfaces0).
    { apply (Permutation_in _ Hperm). apply in_or_app. left.
      rewrite concat_app. apply in_or_app. right. simpl. rewrite app_nil_r.
      eapply nth_error_In; eassumption. }
    assert (Hrest : forall h, In h hf -> exists f, find faceset h = Some f).
    { intros h Hh. apply findable. apply (Permutation_in _ Hperm).
      apply in_or_app. now right. }
    pose proof (findNeighbour_shares faceset hface hf (findable _ Hin) Hrest) as Hn.
    destruct (findNeighbour faceset hface hf) as [[j|]|e]; [| |contradiction].
    + cbn [result_bind] in Hstep.
      destruct (pop j hf) as [[x rest]|e] eqn:Hpop; [|discriminate].
      cbn [result_bind fst snd] in Hstep. rewrite appendAt_last in Hstep.
      cbn [result_bind] in Hstep. injection Hstep as <-.
      destruct (pop_In j hf x rest Hpop) as (Hx & Hsub).
      destruct Hn as (x' & Hx' & Hshare). rewrite Hx in Hx'. injection Hx' as <-.
      assert (Hxin : In x hf) by (eapply nth_error_In; eassumption).
      apply separated_snoc in Hsep. destruct Hsep as (Hsepd & Hlast).
      apply Forall_app in Hconn. destruct Hconn as (Hconnd & Hconni).
      intros done' isle' E. cbn [islands currentisle currentface found hfaces] in *.
      apply app_inj_tail in E. destruct E as (<- & <-).
      split; [|split; [|split; [|split]]].
      * apply Forall_app. split; [assumption|]. constructor; [|constructor].
        apply (connected_snoc faceset isle hface x).
        -- now inversion Hconni.
        -- eapply nth_error_In; eassumption.
        -- assumption.
      * apply separated_snoc. split; [assumption|].
        intros a b Ha Hb. apply in_app_or in Hb. destruct Hb as [Hb|[<-|[]]].
        -- now apply Hlast.
        -- now apply Hdone.
      * intros a b Ha Hb. apply Hdone; [assumption | now apply Hsub].
      * intros p a b Hp Ha Hb. apply (Hbefore p a b Hp); [|now apply Hsub].
        rewrite nth_error_app1 in Ha by lia. exact Ha.
      * discriminate.
    + cbn [result_bind] in Hstep. injection Hstep as <-.
      intros done' isle' E. cbn [islands currentisle currentface found hfaces] in *.
      apply app_inj_tail in E. destruct E as (<- & <-).
      split; [assumption|]. split; [assumption|]. split; [assumption|].
      split; [assumption|].
      intros _ a b Ha Hb. rewrite Ehface in Ha. injection Ha as <-. now apply Hn.
  - assert (Hall : (List.length isle <= cf + 1)%nat ->
                   forall a b, In a (concat (done ++ [isle])) -> In b hf ->
                               sharesEdge faceset a b = false).
    { intros Hlen a b Ha Hb. rewrite concat_app in Ha. simpl in Ha.
      rewrite app_nil_r in Ha. apply in_app_or in Ha. destruct Ha as [Ha|Ha].
      - now apply Hdone.
      - apply In_nth_error in Ha. destruct Ha as (p & Hp).
        assert (Hlt : (p < List.length isle)%nat)
          by (apply nth_error_Some; congruence).
        destruct (Nat.eq_dec p cf) as [->|Hne'].
        + now apply (Hcur eq_refl a b).
        + apply (Hbefore p a b); [lia | assumption | assumption]. }
    destruct (cf + 1 <? List.length isle)%nat eqn:E.
    + injection Hstep as <-.
      intros done' isle' E'. cbn [islands currentisle currentface found hfaces] in *.
      apply app_inj_tail in E'. destruct E' as (<- & <-).
      split; [assumption|]. split; [assumption|]. split; [assumption|].
      split; [|discriminate].
      intros p a b Hp Ha Hb. destruct (Nat.eq_dec p cf) as [->|Hne'].
      * now apply (Hcur eq_refl a b).
      * apply (Hbefore p a b); [lia | assumption | assumption].
    + apply Nat.ltb_ge in E. specialize (Hall E).
      destruct (pop 0 hf) as [[h rest]|e] eqn:Hpop; [|discriminate].
      cbn [result_bind fst snd] in Hstep. injection Hstep as <-.
      destruct (pop_In 0 hf h rest Hpop) as (Hh & Hsub).
      assert (Hhin : In h hf) by (eapply nth_error_In; eassumption).
      intros done' isle' E'. cbn [islands currentisle currentface found hfaces] in *.
      apply app_inj_tail in E'. destruct E' as (<- & <-).
      split; [|split; [|split; [|split]]].
      * apply Forall_app. split; [assumption|]. constructor; [|constructor].
        apply connected_one.
      * apply separated_snoc. split; [assumption|].
        intros a b Ha [<-|[]]. now apply Hall.
      * intros a b Ha Hb. apply Hall; [assumption | now apply Hsub].
      * intros p a b Hp. lia.
      * discriminate.
Qed.

Lemma sortLoop_searched (fuel : nat) (st : Sorting) (isles : list (list Z)) :
  sorting hfaces0 st -> searched faceset st ->
  sortLoop faceset fuel st = Some (Ok isles) ->
  Forall (connected faceset) isles /\ separated faceset isles.
Proof.
  revert st; induction fuel as [|fuel IH]; intros st Hsort Hsearch Hrun;
    simpl in Hrun; destruct (hfaces st) as [|h rest] eqn:Ehf; try discriminate.
  - injection Hrun as <-. destruct Hsort as ((done & isle & Hisl & _) & _).
    destruct (Hsearch done isle Hisl) as (Hc & Hs & _). now split.
  - injection Hrun as <-. destruct Hsort as ((done & isle & Hisl & _) & _).
    destruct (Hsearch done isle Hisl) as (Hc & Hs & _). now split.
  - destruct (sortStep_progress faceset hfaces0 findable st Hsort)
      as (st' & Hstep & Hsort' & _); [rewrite Ehf; discriminate|].
    rewrite Hstep in Hrun. apply (IH st'); try assumption.
    exact (sortStep_searched st st' Hsort Hsearch Hstep).
Qed.
End SearchedFacts.

Lemma separated_nth (faceset : list Face) (isles : list (list Z)) (i j : nat)
    (a b : list Z) (x y : Z) :
  separated faceset isles -> (i < j)%nat ->
  nth_error isles i = Some a -> nth_error isles j = Some b ->
  In x a -> In y b -> sharesEdge faceset x y = false.
Proof.
  revert i j; induction isles as [|isle isles IH]; intros i j Hsep Hlt Hi Hj Hx Hy.
  - destruct i; discriminate.
  - destruct Hsep as (Hhead & Hsep). destruct j as [|j]; [lia|]. simpl in Hj.
    destruct i as [|i]; simpl in Hi.
    + injection Hi as <-. apply Hhead; [assumption|].
      apply in_concat. exists b. split; [|assumption]. eapply nth_error_In; eassumption.
    + apply (IH i j); try assumption. lia.
Qed.

(** What the islands of a face set are like, whatever the fuel that was
    enough to get them. *)
Lemma sortIslands_components (faceset : list Face) (hfaces0 : list Z) (fuel : nat)
    (isles : list (list Z)) :
  targetFacesOf faceset = Ok hfaces0 ->
  sortIslands faceset fuel hfaces0 = Some (Ok isles) ->
  Forall (connected faceset) isles /\ separated faceset isles
  /\ Permutation (concat isles) hfaces0
  /\ Forall (fun isle => isle <> []) isles.
Proof.
  intros Htarget Hrun.
  assert (Hfind : forall h, In h hfaces0 -> exists f, find faceset h = Some f)
    by (intros h Hh; eapply targetFacesOf_findable; eassumption).
  destruct hfaces0 as [|h0 rest]; [discriminate|].
  unfold sortIslands, pop in Hrun.
  cbn [nth_error of_option result_bind firstn skipn app fst snd] in Hrun.
  set (st0 := {| islands := [[h0]]; currentisle := 0%nat; currentface := 0%nat;
                 found := true; hfaces := rest |}) in *.
  assert (Hst0 : sorting (h0 :: rest) st0).
  { split; [|split].
    - exists [], [h0]. simpl. repeat split; lia.
    - constructor; [discriminate | constructor].
    - reflexivity. }
  assert (Hsearch0 : searched faceset st0).
  { intros done isle E. cbn [st0 islands currentisle currentface found hfaces] in *.
    change [[h0]] with ([] ++ [[h0]]) in E. apply app_inj_tail in E.
    destruct E as (<- & <-).
    split; [constructor; [apply connected_one | constructor]|].
    split; [split; [intros x y _ [] | exact I]|].
    split; [intros x y []|]. split; [intros p x y Hp; lia | discriminate]. }
  destruct (sortLoop_searched faceset (h0 :: rest) Hfind fuel st0 isles Hst0 Hsearch0 Hrun)
    as (Hconn & Hsep).
  split; [exact Hconn|]. split; [exact Hsep|].
  destruct (sortLoop_done faceset (h0 :: rest) Hfind (Nat.max fuel (stepsLeft st0)) st0
              Hst0 (Nat.le_max_r _ _)) as (isles' & Hrun' & Hne & Hperm).
  rewrite (sortLoop_more_fuel _ _ _ _ _ Hrun (Nat.le_max_l _ _)) in Hrun'.
  injection Hrun' as <-. now split.
Qed.

(** X11.  In every island [cleanFaces] sorts the target faces into, each
    face but the first has an edge of a face that comes before it in the
    island: the faces of an island hang together by their edges. *)
Theorem islands_connected (faceset : list Face) (hfaces0 : list Z) (fuel : nat)
    (isles : list (list Z)) :
  targetFacesOf faceset = Ok hfaces0 ->
  sortIslands faceset fuel hfaces0 = Some (Ok isles) ->
  forall isle pre x post,
    In isle isles -> isle = pre ++ x :: post -> pre <> [] ->
    exists y, In y pre /\ sharesEdge faceset y x = true.
Proof.
  intros Htarget Hrun isle pre x post Hin.
  destruct (sortIslands_components faceset hfaces0 fuel isles Htarget Hrun) as (Hconn & _).
  rewrite Forall_forall in Hconn. apply (Hconn isle Hin).
Qed.

Lemma islands_connected_witness :
  exists y, In y [10] /\ sharesEdge [Flat.squareA; Flat.squareB; Flat.squareC] y 20 = true.
Proof.
  apply (islands_connected [Flat.squareA; Flat.squareB; Flat.squareC] [10; 20] 6 [[10; 20]]
           eq_refl eq_refl [10; 20] [10] 20 []);
    [now left | reflexivity | discriminate].
Defined.

(** X12.  Two faces of different islands have no edge in common: a face
    with an edge of a face of an island is in that island. *)
Theorem islands_separated (faceset : list Face) (hfaces0 : list Z) (fuel : nat)
    (isles : list (list Z)) :
  targetFacesOf faceset = Ok hfaces0 ->
  sortIslands faceset fuel hfaces0 = Some (Ok isles) ->
  forall i j a b x y,
    i <> j -> nth_error isles i = Some a -> nth_error isles j = Some b ->
    In x a -> In y b -> sharesEdge faceset x y = false.
Proof.
  intros Htarget Hrun i j a b x y Hne Hi Hj Hx Hy.
  destruct (sortIslands_components faceset hfaces0 fuel isles Htarget Hrun)
    as (_ & Hsep & _).
  destruct (Nat.lt_total i j) as [Hlt|[Heq|Hgt]]; [|contradiction|].
  - now apply (separated_nth faceset isles i j a b x y).
  - rewrite sharesEdge_sym. now apply (separated_nth faceset isles j i b a y x).
Qed.

Lemma islands_separated_witness :
  sharesEdge Flat_fourSquares 20 40 = false.
Proof.
  apply (islands_separated Flat_fourSquares [10; 20; 40; 50] 12 [[10; 20]; [40; 50]]
           eq_refl eq_refl 0%nat 1%nat [10; 20] [40; 50]);
    [discriminate | reflexivity | reflexivity | simpl; tauto | simpl; tauto].
Defined.

(** ** cleanFaces: an island has two faces at least *)

Lemma owners_cons (f : Face) (faceset : list Face) (k : Z) :
  owners (f :: faceset) k = owners [f] k ++ owners faceset k.
Proof.
  unfold owners, ownerships. simpl. now rewrite app_nil_r, filter_app, map_app.
Qed.

Lemma owners_edge (faceset : list Face) (k h : Z) :
  In h (owners faceset k) ->
  exists f e, In f faceset /\ faceHashCode f = h
              /\ In e (faceEdges f) /\ edgeHashCode e = k.
Proof.
  unfold owners, ownerships. intro Hin.
  apply in_map_iff in Hin. destruct Hin as ([k' h'] & Hh & Hin). simpl in Hh. subst h'.
  apply filter_In in Hin. destruct Hin as (Hin & Hk). simpl in Hk.
  apply Z.eqb_eq in Hk. subst k'.
  apply in_flat_map in Hin. destruct Hin as (f & Hf & Hin).
  apply in_map_iff in Hin. destruct Hin as (e & He & Hin).
  injection He as Hk Hh. now exists f, e.
Qed.

Lemma owners_NoDup (faceset : list Face) (k : Z) :
  NoDup (map faceHashCode faceset) ->
  (forall f, In f faceset -> NoDup (map edgeHashCode (faceEdges f))) ->
  NoDup (owners faceset k).
Proof.
  induction faceset as [|f faceset IH]; intros Hfaces Hedges; [constructor|].
  rewrite owners_cons. simpl in Hfaces.
  inversion Hfaces as [|? ? Hnot Hfaces']; subst.
  apply NoDup_app.
  - pose proof (single_face_owners f k (Hedges f (or_introl eq_refl))) as Hlen.
    destruct (owners [f] k) as [|a [|b l]]; [constructor | | simpl in Hlen; lia].
    constructor; [intros [] | constructor].
  - apply IH; [assumption | intros; apply Hedges; now right].
  - intros h Hh Hh'. apply owners_In_faceset in Hh, Hh'.
    destruct Hh as (f0 & [<-|[]] & <-). destruct Hh' as (f' & Hf' & Heq).
    apply Hnot. rewrite <- Heq. now apply in_map.
Qed.

Lemma find_the_face (faceset : list Face) (f : Face) :
  NoDup (map faceHashCode faceset) -> In f faceset ->
  find faceset (faceHashCode f) = Some f.
Proof.
  induction faceset as [|g faceset IH]; intros Hnd Hin; [contradiction|].
  simpl in Hnd. inversion Hnd as [|? ? Hnot Hnd']; subst.
  unfold find. simpl. destruct (faceHashCode g =? faceHashCode f) eqn:E.
  - destruct Hin as [->|Hin]; [reflexivity|].
    apply Z.eqb_eq in E. exfalso. apply Hnot. rewrite E. now apply in_map.
  - destruct Hin as [->|Hin]; [now rewrite Z.eqb_refl in E | now apply IH].
Qed.

Lemma owners_share (faceset : list Face) (k h h' : Z) :
  NoDup (map faceHashCode faceset) ->
  In h (owners faceset k) -> In h' (owners faceset k) ->
  sharesEdge faceset h h' = true.
Proof.
  intros Hnd Hh Hh'.
  apply owners_edge in Hh, Hh'.
  destruct Hh as (f & e & Hf & <- & He & Hk).
  destruct Hh' as (f' & e' & Hf' & <- & He' & Hk').
  unfold sharesEdge. rewrite !find_the_face by assumption.
  apply existsb_exists. exists e'. split; [assumption|].
  apply Z_in_In. rewrite Hk', <- Hk. now apply in_map.
Qed.

(** X16.  When the faces of the shape have different hashcodes and the
    edge list of a face names each edge once, every island holds at least
    two faces: [cleanFaces] builds no new face from a single one. *)
Theorem islands_two_faces (faceset : list Face) (hfaces0 : list Z) (fuel : nat)
    (isles : list (list Z)) :
  NoDup (map faceHashCode faceset) ->
  (forall f, In f faceset -> NoDup (map edgeHashCode (faceEdges f))) ->
  targetFacesOf faceset = Ok hfaces0 ->
  sortIslands faceset fuel hfaces0 = Some (Ok isles) ->
  forall isle, In isle isles -> (2 <= List.length isle)%nat.
Proof.
  intros Hfaces Hedges Htarget Hrun isle Hisle.
  destruct (sortIslands_components faceset hfaces0 fuel isles Htarget Hrun)
    as (_ & Hsep & Hperm & Hne).
  destruct (targetFacesOf_known faceset) as (hfaces0' & Htarget' & _ & Hspec).
  rewrite Htarget in Htarget'. injection Htarget' as <-.
  rewrite Forall_forall in Hne. specialize (Hne isle Hisle).
  destruct isle as [|h [|h2 isle]]; [contradiction| |simpl; lia]. exfalso.
  assert (Hh : In h hfaces0).
  { apply (Permutation_in _ Hperm). apply in_concat. exists [h]. split; [assumption|].
    now left. }
  apply Hspec in Hh. destruct Hh as (k & Hk & Hown).
  assert (Hother : exists h', h' <> h /\ In h' (owners faceset k)).
  { pose proof (owners_NoDup faceset k Hfaces Hedges) as Hnd.
    destruct Hk as (h0 & h1 & _ & _ & Ho & _). rewrite Ho in *.
    inversion Hnd as [|? ? Hnot _]; subst.
    destruct Hown as [<-|[<-|[]]].
    - exists h1. split; [|simpl; tauto]. intros ->. apply Hnot. now left.
    - exists h0. split; [|simpl; tauto]. intros ->. apply Hnot. now left. }
  destruct Hother as (h' & Hdiff & Hown').
  assert (Hh' : In h' (concat isles)).
  { apply (Permutation_in _ (Permutation_sym Hperm)). apply Hspec. now exists k. }
  apply in_concat in Hh'. destruct Hh' as (b & Hb & Hh'b).
  apply In_nth_error in Hisle, Hb.
  destruct Hisle as (i & Hi). destruct Hb as (j & Hj).
  assert (Hshare : sharesEdge faceset h h' = true) by now apply (owners_share faceset k).
  destruct (Nat.eq_dec i j) as [->|Hij].
  - rewrite Hi in Hj. injection Hj as <-. destruct Hh'b as [->|[]]. now apply Hdiff.
  - destruct (Nat.lt_total i j) as [Hlt|[Heq|Hgt]]; [|contradiction|].
    + rewrite (separated_nth faceset isles i j [h] b h h' Hsep Hlt Hi Hj
                 (or_introl eq_refl) Hh'b) in Hshare. discriminate.
    + rewrite sharesEdge_sym in Hshare.
      rewrite (separated_nth faceset isles j i b [h] h' h Hsep Hgt Hj Hi
                 Hh'b (or_introl eq_refl)) in Hshare. discriminate.
Qed.

Lemma islands_two_faces_witness :
  (2 <= List.length [40; 50]%Z)%nat.
Proof.
  apply (islands_two_faces Flat_fourSquares [10; 20; 40; 50] 12 [[10; 20]; [40; 50]]);
    try reflexivity.
  - simpl. repeat constructor; simpl; intuition discriminate.
  - intros f Hf. simpl in Hf.
    repeat (destruct Hf as [<-|Hf];
            [simpl; repeat constructor; simpl; intuition discriminate|]).
    contradiction.
  - simpl. tauto.
Defined.

(** ** cleanFaces: the shell, the loop's end and the kernel's errors *)

Lemma islandsFaces_Ok {K : Kernel} (faceset : list Face) (isles : list (list Z))
    (newfaces : list Face) (treated : list Z) (nf : list Face) (tr : list Z) :
  islandsFaces faceset isles newfaces treated = Ok (nf, tr) ->
  tr = treated ++ concat isles
  /\ exists merged,
       nf = newfaces ++ merged
       /\ Forall2 (fun isle f => islandFace faceset isle = Ok f) isles merged.
Proof.
  revert newfaces treated; induction isles as [|isle isles IH];
    intros newfaces treated Hrun; simpl in Hrun.
  - injection Hrun as <- <-. simpl. rewrite app_nil_r. split; [reflexivity|].
    exists []. rewrite app_nil_r. split; [reflexivity | constructor].
  - destruct (islandFace faceset isle) as [shp|e] eqn:Hshp; [|discriminate].
    simpl in Hrun. apply IH in Hrun. destruct Hrun as (-> & merged & -> & Hall).
    split; [simpl; now rewrite app_assoc|].
    exists (shp :: merged). split; [now rewrite <- app_assoc|]. now constructor.
Qed.

Lemma islandsFaces_Raise {K : Kernel} (faceset : list Face) (pre : list (list Z))
    (isle : list Z) (post : list (list Z)) (newfaces : list Face) (treated : list Z)
    (e : exn) :
  Forall (fun i => exists f, islandFace faceset i = Ok f) pre ->
  islandFace faceset isle = Raise e ->
  islandsFaces faceset (pre ++ isle :: post) newfaces treated = Raise e.
Proof.
  intros Hpre Hisle. revert newfaces treated.
  induction Hpre as [|i pre (f & Hf) _ IH]; intros newfaces treated; simpl.
  - now rewrite Hisle.
  - rewrite Hf. simpl. apply IH.
Qed.

(** X13.  When [cleanFaces] returns a shape, the kernel made its shell from
    one new face for each island, in the order of the islands, followed by
    the faces of the shape that are no target faces, unchanged and in
    their order; the shell is made a solid exactly when the shape is
    closed. *)
Theorem cleanFaces_shell {K : Kernel} (fuel : nat) (shape cleaned : Shape)
    (hfaces0 : list Z) :
  targetFacesOf (Faces shape) = Ok hfaces0 ->
  cleanFaces fuel shape = Some (Ok cleaned) ->
  exists isles merged fshape,
    sortIslands (Faces shape) fuel hfaces0 = Some (Ok isles)
    /\ Forall2 (fun isle f => islandFace (Faces shape) isle = Ok f) isles merged
    /\ makeShell
         (merged ++ filter (fun f => negb (Z_in (faceHashCode f) hfaces0)) (Faces shape))
       = Ok fshape
    /\ (if isClosed shape then makeSolid fshape = Ok cleaned else cleaned = fshape).
Proof.
  intros Htarget Hrun. unfold cleanFaces in Hrun. rewrite Htarget in Hrun.
  destruct (sortIslands (Faces shape) fuel hfaces0) as [[isles|e]|] eqn:Hsort;
    try discriminate.
  injection Hrun as Hrun. unfold rebuild in Hrun.
  destruct (islandsFaces (Faces shape) isles [] []) as [[nf tr]|e] eqn:Hnew;
    [|discriminate].
  cbn [result_bind fst snd] in Hrun.
  apply islandsFaces_Ok in Hnew. destruct Hnew as (-> & merged & -> & Hall).
  destruct (sortIslands_components (Faces shape) hfaces0 fuel isles Htarget Hsort)
    as (_ & _ & Hperm & _).
  assert (Hfilter : filter (fun f => negb (Z_in (faceHashCode f) ([] ++ concat isles)))
                      (Faces shape) =
                    filter (fun f => negb (Z_in (faceHashCode f) hfaces0)) (Faces shape)).
  { apply filter_ext. intro f. f_equal. apply eq_true_iff_eq.
    rewrite !Z_in_In. simpl. split; apply Permutation_in; [|symmetry]; exact Hperm. }
  rewrite Hfilter in Hrun. simpl app in Hrun.
  destruct (makeShell _) as [fshape|e] eqn:Hshell; [|discriminate].
  cbn [result_bind] in Hrun.
  exists isles, merged, fshape. split; [reflexivity|]. split; [exact Hall|].
  split; [exact Hshell|].
  destruct (isClosed shape); [exact Hrun | now injection Hrun as <-].
Qed.

Lemma cleanFaces_shell_witness :
  exists isles merged fshape,
    sortIslands Flat_fourSquares 12 [10; 20; 40; 50] = Some (Ok isles)
    /\ Forall2 (fun isle f => @islandFace Flat.kernel Flat_fourSquares isle = Ok f)
               isles merged
    /\ @makeShell Flat.kernel (merged ++ [Flat.squareC]) = Ok fshape
    /\ Flat.compound (merged ++ [Flat.squareC]) = fshape.
Proof.
  destruct (@cleanFaces_shell Flat.kernel 12 (Flat.compound Flat_fourSquares)
              _ [10; 20; 40; 50] eq_refl eq_refl)
    as (isles & merged & fshape & Hsort & Hall & Hshell & Hclosed).
  exists isles, merged, fshape. split; [exact Hsort|]. split; [exact Hall|].
  split; [exact Hshell|].
  simpl in Hclosed. rewrite <- Hclosed.
  injection Hsort as <-.
  inversion Hall as [|? f1 ? ? H1 Hall']; subst.
  inversion Hall' as [|? f2 ? ? H2 Hall'']; subst.
  inversion Hall''; subst.
  injection H1 as <-. injection H2 as <-. reflexivity.
Defined.

Lemma targetFacesOf_length (faceset : list Face) (hfaces0 : list Z) :
  targetFacesOf faceset = Ok hfaces0 ->
  (List.length hfaces0 <= List.length faceset)%nat.
Proof.
  intro Hrun. destruct (targetFacesOf_known faceset) as (l & Hrun' & Hnd & Hspec).
  rewrite Hrun in Hrun'. injection Hrun' as <-.
  rewrite <- (length_map faceHashCode faceset).
  apply NoDup_incl_length; [exact Hnd|].
  intros h Hh. apply Hspec in Hh. destruct Hh as (k & _ & Ho).
  destruct (find_owner faceset k h Ho) as (f & _ & <- & Hf). now apply in_map.
Qed.

Lemma sortIslands_enough (faceset : list Face) (hfaces0 : list Z) :
  targetFacesOf faceset = Ok hfaces0 -> hfaces0 <> [] ->
  exists isles,
    forall fuel, (3 * List.length hfaces0 <= fuel)%nat ->
                 sortIslands faceset fuel hfaces0 = Some (Ok isles).
Proof.
  intros Hrun Hne.
  assert (Hfind : forall h, In h hfaces0 -> exists f, find faceset h = Some f)
    by (intros h Hh; eapply targetFacesOf_findable; eassumption).
  destruct hfaces0 as [|h0 rest]; [contradiction|].
  set (st0 := {| islands := [[h0]]; currentisle := 0%nat; currentface := 0%nat;
                 found := true; hfaces := rest |}).
  assert (Hst0 : sorting (h0 :: rest) st0).
  { split; [|split].
    - exists [], [h0]. simpl. repeat split; lia.
    - constructor; [discriminate | constructor].
    - reflexivity. }
  destruct (sortLoop_done faceset (h0 :: rest) Hfind (stepsLeft st0) st0 Hst0 (le_n _))
    as (isles & Hloop & _).
  exists isles. intros fuel Hfuel.
  unfold sortIslands, pop. cbn [nth_error of_option result_bind firstn skipn app fst snd].
  fold st0. apply (sortLoop_more_fuel _ _ _ _ _ Hloop).
  unfold stepsLeft. simpl in *. lia.
Qed.

(** X14.  [cleanFaces] ends on every shape: its loop takes at most three
    iterations for each face of the shape, and what it returns or raises
    does not depend on the iterations allowed beyond that. *)
Theorem cleanFaces_ends {K : Kernel} (shape : Shape) :
  exists outcome,
    forall fuel, (3 * List.length (Faces shape) <= fuel)%nat ->
                 cleanFaces fuel shape = Some outcome.
Proof.
  destruct (targetFacesOf_known (Faces shape)) as (hfaces0 & Hrun & _).
  pose proof (targetFacesOf_length _ _ Hrun) as Hlen.
  unfold cleanFaces. rewrite Hrun.
  destruct hfaces0 as [|h0 rest] eqn:E.
  - exists (Raise IndexError). reflexivity.
  - destruct (sortIslands_enough (Faces shape) (h0 :: rest) Hrun) as (isles & Hisles);
      [discriminate|].
    exists (rebuild shape isles). intros fuel Hfuel.
    rewrite Hisles; [reflexivity|]. lia.
Qed.

Lemma cleanFaces_ends_witness :
  exists outcome, @cleanFaces Flat.kernel 6 Flat.twoSquares = Some outcome.
Proof.
  destruct (@cleanFaces_ends Flat.kernel Flat.twoSquares) as (outcome & H).
  exists outcome. apply H. simpl. lia.
Defined.

(** X15.  [cleanFaces] does not catch what the kernel raises: when the
    faces of the islands before an island are built and the kernel raises
    while the wire and face of that island are built, [cleanFaces] raises
    the same, the kernel's construction error included. *)
Theorem cleanFaces_propagates {K : Kernel} (fuel : nat) (shape : Shape)
    (hfaces0 : list Z) (pre : list (list Z)) (isle : list Z) (post : list (list Z))
    (fset : list Face) (bounds : list Edge) (e : exn) :
  targetFacesOf (Faces shape) = Ok hfaces0 ->
  sortIslands (Faces shape) fuel hfaces0 = Some (Ok (pre ++ isle :: post)) ->
  Forall (fun i => exists f, islandFace (Faces shape) i = Ok f) pre ->
  islandFaces (Faces shape) isle = Ok fset ->
  getBoundary (AList fset) = Ok bounds ->
  (Part_Wire (sortEdges bounds) = Raise e
   \/ exists w, Part_Wire (sortEdges bounds) = Ok w /\ Part_Face w = Raise e) ->
  cleanFaces fuel shape = Some (Raise e).
Proof.
  intros Htarget Hsort Hpre Hfset Hbounds Hfail.
  unfold cleanFaces. rewrite Htarget, Hsort. f_equal.
  unfold rebuild. rewrite (islandsFaces_Raise _ pre isle post [] [] e Hpre); [reflexivity|].
  unfold islandFace. rewrite Hfset. cbn [result_bind]. rewrite Hbounds. cbn [result_bind].
  destruct Hfail as [Hw | (w & Hw & Hf)]; rewrite Hw; cbn [result_bind];
    [|rewrite Hf]; reflexivity.
Qed.

Lemma cleanFaces_propagates_witness :
  @cleanFaces Flat.kernel 6 (Flat.compound [Flat.squareA; Flat_squareA']) =
    Some (Raise OCCError).
Proof.
  apply (@cleanFaces_propagates Flat.kernel 6 (Flat.compound [Flat.squareA; Flat_squareA'])
           [10; 11] [] [10; 11] [] [Flat.squareA; Flat_squareA'] [] OCCError);
    try reflexivity.
  - constructor.
  - left. reflexivity.
Defined.

(** ** isCoplanar: what it raises *)

Lemma vertexesInPlane_no_first {K : Kernel} (base : Vector) (face0 : Face)
    (tolerance : Q) (vs : list Vertex) :
  faceVertexes face0 = [] ->
  vertexesInPlane base face0 tolerance vs =
  match vs with [] => Ok true | _ :: _ => Raise IndexError end.
Proof.
  intro H0. destruct vs as [|v vs]; simpl; [|rewrite H0]; reflexivity.
Qed.

Lemma facesInPlane_no_first {K : Kernel} (base : Vector) (face0 : Face)
    (tolerance : Q) (faces : list Face) :
  faceVertexes face0 = [] ->
  facesInPlane base face0 tolerance faces =
  match flat_map faceVertexes faces with [] => Ok true | _ :: _ => Raise IndexError end.
Proof.
  intro H0. induction faces as [|f faces IH]; simpl; [reflexivity|].
  rewrite (vertexesInPlane_no_first _ _ _ _ H0).
  destruct (faceVertexes f); simpl; [exact IH | reflexivity].
Qed.

(** X17.  [isCoplanar] raises only [IndexError], and on two or more faces
    it does exactly when the first face has no vertex, for
    [faces[0].Vertexes[0]], while a later face has one. *)
Theorem isCoplanar_IndexError {K : Kernel} (tolerance : Q) :
  (forall faces e, isCoplanar faces tolerance = Raise e -> e = IndexError)
  /\ (forall face0 face1 others,
      isCoplanar (face0 :: face1 :: others) tolerance = Raise IndexError <->
      faceVertexes face0 = []
      /\ exists f v, In f (face1 :: others) /\ In v (faceVertexes f)).
Proof.
  assert (Htwo : forall face0 face1 others e,
             isCoplanar (face0 :: face1 :: others) tolerance = Raise e ->
             e = IndexError /\ faceVertexes face0 = []
             /\ exists f v, In f (face1 :: others) /\ In v (faceVertexes f)).
  { intros face0 face1 others e. unfold isCoplanar.
    cbn [List.length Nat.ltb Nat.leb nth_error of_option result_bind skipn].
    destruct (faceVertexes face0) as [|v0 vs] eqn:H0.
    - rewrite (facesInPlane_no_first _ _ _ _ H0).
      destruct (flat_map faceVertexes (face1 :: others)) as [|v l] eqn:Ev; [discriminate|].
      intro H. injection H as <-. split; [reflexivity|]. split; [reflexivity|].
      assert (Hv : In v (flat_map faceVertexes (face1 :: others)))
        by (rewrite Ev; now left).
      apply in_flat_map in Hv. destruct Hv as (f & Hf & Hv). now exists f, v.
    - rewrite (facesInPlane_origin face0 tolerance v0) by (now rewrite H0).
      discriminate. }
  split.
  - intros faces e. destruct faces as [|face0 [|face1 others]]; try discriminate.
    intro H. now apply Htwo in H.
  - intros face0 face1 others. split.
    + intro H. now apply Htwo in H.
    + intros (H0 & f & v & Hf & Hv). unfold isCoplanar.
      cbn [List.length Nat.ltb Nat.leb nth_error of_option result_bind skipn].
      rewrite (facesInPlane_no_first _ _ _ _ H0).
      destruct (flat_map faceVertexes (face1 :: others)) as [|v' l] eqn:Ev; [|reflexivity].
      assert (Hin : In v (flat_map faceVertexes (face1 :: others)))
        by (apply in_flat_map; now exists f).
      now rewrite Ev in Hin.
Qed.

Lemma isCoplanar_IndexError_witness :
  @isCoplanar Flat.kernel [Flat.merged; Flat.squareA] 0 = Raise IndexError.
Proof.
  apply (proj2 (@isCoplanar_IndexError Flat.kernel 0)).
  split; [reflexivity|].
  exists Flat.squareA, (Flat.vertex 0 0 0). simpl. tauto.
Defined.
